(** * Tracked memory of libvips: libvips/iofuncs/memory.c

    A shallow embedding of the tracked allocator (vips_tracked_malloc(),
    vips_tracked_free() and the three read accessors) together with the
    collaborators it calls: the byte allocator (g_try_malloc(), g_free()),
    the reporting channel (vips_error(), vips_warn()) and the "postclose"
    signal of the owning object. *)

From Stdlib Require Import ZArith Lia List Bool.
From stdpp Require Import base tactics option list gmap strings.

Local Open Scope Z_scope.

(** ** Outcomes of a call *)

(** A C call either returns, or stops the process in g_assert(), or leaves
    the behaviour the C standard defines (signed overflow, a store outside
    the block it was given, a load of an address nothing was ever stored
    at). *)
Inductive outcome (A : Type) : Type :=
| Done (a : A)
| Aborted
| Undefined.
Arguments Done {A} a.
Arguments Aborted {A}.
Arguments Undefined {A}.

(** ** The reporting channel *)

(** What the format "out of memory --- size == %dMB" is filled with:
    [None] stands for the unspecified int an out-of-range conversion from
    double gives. *)
Inductive message : Type :=
| out_of_memory (mb : option Z)
| text (s : string).

Inductive event : Type :=
| error_event (domain : string) (msg : message)
| warn_event (domain : string) (msg : message).

(** ** State *)

(** The three static counters of the file, and what the collaborators
    keep: the live blocks of the byte allocator as (base, bytes) pairs, the
    size_t words stored in memory by address, the reports so far in the
    order they were made, and the (object, buf) pairs for which
    vips_tracked_cb() is connected to "postclose". *)
Record state : Type := State {
  vips_tracked_allocs : Z;
  vips_tracked_mem : Z;
  vips_tracked_mem_highwater : Z;
  heap : list (Z * Z);
  memory : gmap Z Z;
  log : list event;
  handlers : list (Z * Z)
}.

Definition set_allocs (v : Z) (st : state) : state :=
  State v (vips_tracked_mem st) (vips_tracked_mem_highwater st)
        (heap st) (memory st) (log st) (handlers st).
Definition set_mem (v : Z) (st : state) : state :=
  State (vips_tracked_allocs st) v (vips_tracked_mem_highwater st)
        (heap st) (memory st) (log st) (handlers st).
Definition set_highwater (v : Z) (st : state) : state :=
  State (vips_tracked_allocs st) (vips_tracked_mem st) v
        (heap st) (memory st) (log st) (handlers st).
Definition set_heap (v : list (Z * Z)) (st : state) : state :=
  State (vips_tracked_allocs st) (vips_tracked_mem st)
        (vips_tracked_mem_highwater st) v (memory st) (log st) (handlers st).
Definition set_memory (v : gmap Z Z) (st : state) : state :=
  State (vips_tracked_allocs st) (vips_tracked_mem st)
        (vips_tracked_mem_highwater st) (heap st) v (log st) (handlers st).
Definition set_log (v : list event) (st : state) : state :=
  State (vips_tracked_allocs st) (vips_tracked_mem st)
        (vips_tracked_mem_highwater st) (heap st) (memory st) v (handlers st).
Definition set_handlers (v : list (Z * Z)) (st : state) : state :=
  State (vips_tracked_allocs st) (vips_tracked_mem st)
        (vips_tracked_mem_highwater st) (heap st) (memory st) (log st) v.

(** static int vips_tracked_allocs = 0; static size_t vips_tracked_mem = 0;
    static size_t vips_tracked_mem_highwater = 0; nothing allocated,
    nothing reported, nothing connected. *)
Definition initial : state := State 0 0 0 [] ∅ [] [].

(** ** The monad of the embedding: state passing with outcomes *)

Definition M (A : Type) : Type := state → outcome (A * state).

Definition ret {A} (a : A) : M A := λ st, Done (a, st).

Definition bind {A B} (m : M A) (k : A → M B) : M B :=
  λ st, match m st with
        | Done (a, st') => k a st'
        | Aborted => Aborted
        | Undefined => Undefined
        end.

Notation "'let!' x ':=' m 'in' k" := (bind m (λ x, k))
  (at level 10, x name, m at level 100, k at level 200, only parsing).
Notation "m '>>' k" := (bind m (λ _, k))
  (at level 100, k at level 200, right associativity, only parsing).

Definition get {A} (f : state → A) : M A := λ st, Done (f st, st).
Definition modify (f : state → state) : M unit := λ st, Done (tt, f st).
Definition undefined {A} : M A := λ _, Undefined.
Definition when (b : bool) (m : M unit) : M unit := if b then m else ret tt.

(** ** Machine integers *)

Definition NULL : Z := 0.
Definition INT_MAX : Z := 2147483647.
Definition INT_MIN : Z := -2147483648.

Definition int_range (z : Z) : Prop := INT_MIN <= z <= INT_MAX.

(** int arithmetic: a result outside the type is undefined in C. *)
Definition int_op (z : Z) : M Z :=
  if (INT_MIN <=? z) && (z <=? INT_MAX) then ret z else undefined.

(** (int) (size / (1024.0*1024.0)): the division by 2^20 is exact in
    double whenever the quotient fits an int (then size < 2^51), and the
    conversion truncates; a quotient that does not fit converts to an
    unspecified int. *)
Definition megabytes (size : Z) : option Z :=
  let mb := size / 1048576 in
  if mb <=? INT_MAX then Some mb else None.

Section Build.

(** The width of size_t in bits, and whether DEBUG is defined. *)
Variable w : Z.
Variable DEBUG : bool.

Definition SIZE_MAX : Z := 2 ^ w - 1.
Definition sizeof_size_t : Z := w / 8.
Definition size_t_range (z : Z) : Prop := 0 <= z <= SIZE_MAX.

(** size_t arithmetic wraps. *)
Definition size_t_wrap (z : Z) : Z := z mod 2 ^ w.

(** ** The collaborators *)

(** g_try_malloc( n ).  The allocator is outside this file: its answer
    [r] (NULL, or the base of the block it grants) is an input of the
    model, and a granted block joins the live blocks. *)
Definition g_try_malloc (n r : Z) : M Z :=
  if r =? NULL then ret NULL
  else modify (λ st, set_heap ((r, n) :: heap st) st) >> ret r.

(** g_free( s ): the block based at [s] leaves the live blocks. What
    the byte allocator does with the bytes of a released block, or with a
    second release of the same base, is its own affair and nothing a
    caller may rely on; here the bytes stay and a base that is not live
    is passed over. [call_ok] below is what says that a call keeps to
    live blocks. *)
Definition g_free (s : Z) : M unit :=
  modify (λ st, set_heap (List.filter (λ b, negb (fst b =? s)) (heap st)) st).

Definition block_size (a : Z) (st : state) : option Z :=
  snd <$> List.find (λ b, fst b =? a) (heap st).

(** Storing the size_t [v] at [a], the base of a live block: the word has
    to fit the block. *)
Definition store_size_t (a v : Z) : M unit :=
  λ st, match block_size a st with
        | Some n =>
            if sizeof_size_t <=? n
            then Done (tt, set_memory (<[a := v]> (memory st)) st)
            else Undefined
        | None => Undefined
        end.

(** Loading a size_t from [a]: the word last stored there. C gives the
    load a meaning only while [a] lies in a live block: what is read from
    a released one is whatever the byte allocator left, and the word this
    model still finds there is that of an allocator that leaves released
    bytes alone. *)
Definition load_size_t (a : Z) : M Z :=
  λ st, match memory st !! a with
        | Some v => Done (v, st)
        | None => Undefined
        end.

Definition vips_error (domain : string) (msg : message) : M unit :=
  modify (λ st, set_log (log st ++ [error_event domain msg]) st).
Definition vips_warn (domain : string) (msg : message) : M unit :=
  modify (λ st, set_log (log st ++ [warn_event domain msg]) st).

(** g_assert( 0 ) *)
Definition g_assert_0 : M unit := λ _, Aborted.

(** g_signal_connect( object, "postclose", G_CALLBACK( vips_tracked_cb ),
    buf ) *)
Definition g_signal_connect_postclose (object buf : Z) : M unit :=
  modify (λ st, set_handlers (handlers st ++ [(object, buf)]) st).

(** g_mutex_lock( vips_tracked_mutex ) and g_mutex_unlock(): with one
    thread of control the section between them simply runs. *)
Definition g_mutex_lock : M unit := ret tt.
Definition g_mutex_unlock : M unit := ret tt.

(** ** The tracked allocator *)

(** vips_tracked_free( s ): the size of the block is read from the 16
    bytes before [s], the counters are brought down under the mutex (the
    second guard compares the size_t counter with 0 as the source does),
    and the block is given back from its base. *)
Definition vips_tracked_free (s : Z) : M unit :=
  let s := s - 16 in
  let! size := load_size_t s in
  g_mutex_lock >>
  (let! allocs := get vips_tracked_allocs in
   when (allocs <=? 0)
     (vips_warn "vips_tracked" (text "vips_free: too many frees"))) >>
  (let! mem := get vips_tracked_mem in
   modify (set_mem (size_t_wrap (mem - size)))) >>
  (let! mem := get vips_tracked_mem in
   when (mem <? 0)
     (vips_warn "vips_tracked" (text "vips_free: too much free"))) >>
  (let! allocs := get vips_tracked_allocs in
   let! allocs := int_op (allocs - 1) in
   modify (set_allocs allocs)) >>
  g_mutex_unlock >>
  g_free s.

(** vips_tracked_cb( object, buf ), the handler that is connected to
    "postclose". *)
Definition vips_tracked_cb (object buf : Z) : M unit :=
  vips_tracked_free buf.

(** vips_tracked_malloc( object, size ), the byte allocator answering
    [r]. The g_once() that creates vips_tracked_mutex on the first call
    has no part in what one thread computes and is left out; size += 16
    is size_t arithmetic. *)
Definition vips_tracked_malloc (object size : Z) (r : Z) : M Z :=
  let size := size_t_wrap (size + 16) in
  let! buf := g_try_malloc size r in
  if buf =? NULL then
    (if DEBUG then g_assert_0 else ret tt) >>
    vips_error "vips_tracked" (out_of_memory (megabytes size)) >>
    vips_warn "vips_tracked" (out_of_memory (megabytes size)) >>
    ret NULL
  else
    g_mutex_lock >>
    store_size_t buf size >>
    let buf := buf + 16 in
    (let! mem := get vips_tracked_mem in
     modify (set_mem (size_t_wrap (mem + size)))) >>
    (let! mem := get vips_tracked_mem in
     let! highwater := get vips_tracked_mem_highwater in
     when (highwater <? mem) (modify (set_highwater mem))) >>
    (let! allocs := get vips_tracked_allocs in
     let! allocs := int_op (allocs + 1) in
     modify (set_allocs allocs)) >>
    g_mutex_unlock >>
    when (negb (object =? NULL)) (g_signal_connect_postclose object buf) >>
    ret buf.

Definition vips_tracked_get_mem : M Z := get vips_tracked_mem.
Definition vips_tracked_get_mem_highwater : M Z :=
  get vips_tracked_mem_highwater.
Definition vips_tracked_get_allocs : M Z := get vips_tracked_allocs.

(** ** The two calls in closed form *)

Definition too_many_frees : event :=
  warn_event "vips_tracked" (text "vips_free: too many frees").
Definition too_much_free : event :=
  warn_event "vips_tracked" (text "vips_free: too much free").

(** The state vips_tracked_free() leaves when the header at [s] held
    [size]. *)
Definition freed (size s : Z) (st : state) : state :=
  State (vips_tracked_allocs st - 1)
        (size_t_wrap (vips_tracked_mem st - size))
        (vips_tracked_mem_highwater st)
        (List.filter (λ b, negb (fst b =? s)) (heap st))
        (memory st)
        (if vips_tracked_allocs st <=? 0
         then log st ++ [too_many_frees] else log st)
        (handlers st).

(** The state a successful vips_tracked_malloc() leaves: [total] is the
    padded size, [r] the base of the block. *)
Definition allocated (object total r : Z) (st : state) : state :=
  State (vips_tracked_allocs st + 1)
        (size_t_wrap (vips_tracked_mem st + total))
        (if vips_tracked_mem_highwater st
            <? size_t_wrap (vips_tracked_mem st + total)
         then size_t_wrap (vips_tracked_mem st + total)
         else vips_tracked_mem_highwater st)
        ((r, total) :: heap st)
        (<[r := total]> (memory st))
        (log st)
        (if object =? NULL then handlers st
         else handlers st ++ [(object, r + 16)]).

(** The state a failed vips_tracked_malloc() leaves. *)
Definition refused (total : Z) (st : state) : state :=
  set_log ((log st
            ++ [error_event "vips_tracked" (out_of_memory (megabytes total))])
            ++ [warn_event "vips_tracked" (out_of_memory (megabytes total))])
          st.

(** ** The owner's lifecycle *)

(** Modelled from the spec: the owning object and its signals (VipsObject
    on GObject) are not in this file. Section 6 has on_destroy(object,
    callback, argument) register callback(argument) to run exactly once
    when the object is destroyed: destroying [object] disconnects its
    handlers and runs each of them once, in the order they were
    connected. *)
Fixpoint run_callbacks (hs : list (Z * Z)) : M unit :=
  match hs with
  | [] => ret tt
  | (object, buf) :: hs => vips_tracked_cb object buf >> run_callbacks hs
  end.

Definition vips_object_postclose (object : Z) : M unit :=
  let! hs := get handlers in
  modify (set_handlers (List.filter (λ h, negb (fst h =? object)) hs)) >>
  run_callbacks (List.filter (λ h, fst h =? object) hs).

(** ** Sequences of calls *)

(** A call of the tracked allocator, with the answer [r] the byte
    allocator gives to the request a vips_tracked_malloc() makes. *)
Inductive call : Type :=
| tracked_malloc (object size r : Z)
| tracked_free (s : Z).

Definition perform (c : call) : M unit :=
  match c with
  | tracked_malloc object size r =>
      vips_tracked_malloc object size r >> ret tt
  | tracked_free s => vips_tracked_free s
  end.

Fixpoint run (cs : list call) : M unit :=
  match cs with
  | [] => ret tt
  | c :: cs => perform c >> run cs
  end.

(** Allocations in a row without owner, each request with the answer of
    the byte allocator: the pointers returned, in order. *)
Fixpoint allocate_all (reqs : list (Z * Z)) : M (list Z) :=
  match reqs with
  | [] => ret []
  | (size, r) :: reqs =>
      let! p := vips_tracked_malloc NULL size r in
      let! ps := allocate_all reqs in
      ret (p :: ps)
  end.

(** The call a request of [allocate_all] makes, and the bytes the
    requests ask for with their headers. *)
Definition malloc_call (q : Z * Z) : call :=
  tracked_malloc NULL (fst q) (snd q).

Definition padded_bytes (reqs : list (Z * Z)) : Z :=
  foldr (λ q acc, fst q + 16 + acc) 0 reqs.

(** ** What the byte allocator promises *)

(** The block of [n] bytes at [b] and the block [blk] share no byte. *)
Definition apart (b n : Z) (blk : Z * Z) : bool :=
  (b + n <=? fst blk) || (fst blk + snd blk <=? b).

(** An answer [r] to a request of [n] bytes, with the blocks [hp] live:
    NULL, or the base of [n] > 0 bytes of the address space that no live
    block overlaps. *)
Definition grant_ok (hp : list (Z * Z)) (n r : Z) : bool :=
  (r =? NULL)
  || ((0 <? n) && (0 <? r) && (r + n <=? 2 ^ w) && forallb (apart r n) hp).

(** A call keeps to the rules: the allocator answers as it promises, and
    a pointer that is freed is the payload of a live block. *)
Definition call_ok (c : call) (st : state) : bool :=
  match c with
  | tracked_malloc _ size r =>
      grant_ok (heap st) (size_t_wrap (size + 16)) r
  | tracked_free s => existsb (λ b, fst b =? s - 16) (heap st)
  end.

Fixpoint calls_ok (cs : list call) (st : state) : bool :=
  match cs with
  | [] => true
  | c :: cs =>
      call_ok c st
      && match perform c st with
         | Done (_, st') => calls_ok cs st'
         | _ => true
         end
  end.

(** ** Consistency of the accounting *)

Definition total_bytes (hp : list (Z * Z)) : Z :=
  foldr (λ blk acc, snd blk + acc) 0 hp.

Definition within (lo hi : Z) (blk : Z * Z) : Prop :=
  0 < snd blk ∧ lo <= fst blk ∧ fst blk + snd blk <= hi.

Fixpoint pairwise_apart (hp : list (Z * Z)) : Prop :=
  match hp with
  | [] => True
  | blk :: hp =>
      Forall (λ blk', apart (fst blk) (snd blk) blk' = true) hp
      ∧ pairwise_apart hp
  end.

(** The counters say what the live blocks are: every live block is a
    tracked block with its size in its header, the blocks lie apart in
    the address space, current bytes is the sum of their sizes and the
    count is their number; the high-water mark is a size_t at least the
    current bytes. *)
Record consistent (st : state) : Prop := Consistent {
  blocks_within : Forall (within 1 (2 ^ w)) (heap st);
  blocks_apart : pairwise_apart (heap st);
  headers_kept :
    Forall (λ blk, memory st !! fst blk = Some (snd blk)) (heap st);
  mem_is_sum : vips_tracked_mem st = total_bytes (heap st);
  allocs_is_count : vips_tracked_allocs st = Z.of_nat (length (heap st));
  highwater_above : vips_tracked_mem st <= vips_tracked_mem_highwater st;
  highwater_size_t : vips_tracked_mem_highwater st < 2 ^ w
}.

(** ** Threads *)

(** Where a thread stands in a pair p = vips_tracked_malloc( NULL, size );
    vips_tracked_free( p ), with the locals it has there. One step is one
    access to what the threads share: a call of the byte allocator, a
    load or a store of a counter or of a header, a report, taking or
    giving back the mutex. *)
Inductive control : Type :=
| Idle
| M_lock (size buf : Z)
| M_header (size buf : Z)
| M_mem_load (size buf : Z)
| M_mem_store (size buf tmp : Z)
| M_highwater (size buf : Z)
| M_allocs_load (size buf : Z)
| M_allocs_store (size buf tmp : Z)
| M_unlock (size buf : Z)
| F_header (s : Z)
| F_lock (s size : Z)
| F_allocs_check (s size : Z)
| F_mem_load (s size : Z)
| F_mem_store (s size tmp : Z)
| F_mem_check (s : Z)
| F_allocs_load (s : Z)
| F_allocs_store (s tmp : Z)
| F_unlock (s : Z)
| F_release (s : Z).

(** The step of a thread at [k] on the shared state, and where the
    thread stands after it. [next] is the size of the pair an idle thread
    starts, [r] the answer of the byte allocator to the request made
    there. The split of vips_tracked_mem += size, vips_tracked_mem -= size,
    vips_tracked_allocs += 1 and vips_tracked_allocs -= 1 into a load and
    a store is what lets two threads interleave inside them. *)
Definition micro_step (k : control) (next : option Z) (r : Z) : M control :=
  match k with
  | Idle =>
      match next with
      | None => undefined
      | Some size =>
          let size := size_t_wrap (size + 16) in
          let! buf := g_try_malloc size r in
          if buf =? NULL then
            (if DEBUG then g_assert_0 else ret tt) >>
            vips_error "vips_tracked" (out_of_memory (megabytes size)) >>
            vips_warn "vips_tracked" (out_of_memory (megabytes size)) >>
            ret Idle
          else ret (M_lock size buf)
      end
  | M_lock size buf => ret (M_header size buf)
  | M_header size buf =>
      store_size_t buf size >> ret (M_mem_load size (buf + 16))
  | M_mem_load size buf =>
      let! mem := get vips_tracked_mem in ret (M_mem_store size buf mem)
  | M_mem_store size buf tmp =>
      modify (set_mem (size_t_wrap (tmp + size))) >>
      ret (M_highwater size buf)
  | M_highwater size buf =>
      (let! mem := get vips_tracked_mem in
       let! highwater := get vips_tracked_mem_highwater in
       when (highwater <? mem) (modify (set_highwater mem))) >>
      ret (M_allocs_load size buf)
  | M_allocs_load size buf =>
      let! allocs := get vips_tracked_allocs in
      ret (M_allocs_store size buf allocs)
  | M_allocs_store size buf tmp =>
      (let! allocs := int_op (tmp + 1) in modify (set_allocs allocs)) >>
      ret (M_unlock size buf)
  | M_unlock size buf => ret (F_header buf)
  | F_header s =>
      let s := s - 16 in
      let! size := load_size_t s in ret (F_lock s size)
  | F_lock s size => ret (F_allocs_check s size)
  | F_allocs_check s size =>
      (let! allocs := get vips_tracked_allocs in
       when (allocs <=? 0)
         (vips_warn "vips_tracked" (text "vips_free: too many frees"))) >>
      ret (F_mem_load s size)
  | F_mem_load s size =>
      let! mem := get vips_tracked_mem in ret (F_mem_store s size mem)
  | F_mem_store s size tmp =>
      modify (set_mem (size_t_wrap (tmp - size))) >> ret (F_mem_check s)
  | F_mem_check s =>
      (let! mem := get vips_tracked_mem in
       when (mem <? 0)
         (vips_warn "vips_tracked" (text "vips_free: too much free"))) >>
      ret (F_allocs_load s)
  | F_allocs_load s =>
      let! allocs := get vips_tracked_allocs in ret (F_allocs_store s allocs)
  | F_allocs_store s tmp =>
      (let! allocs := int_op (tmp - 1) in modify (set_allocs allocs)) >>
      ret (F_unlock s)
  | F_unlock s => ret (F_release s)
  | F_release s => g_free s >> ret Idle
  end.

(** What the step at [k] does with vips_tracked_mutex. *)
Inductive mutex_op : Type := Acquire | Release | Keep.

Definition mutex_effect (k : control) : mutex_op :=
  match k with
  | M_lock _ _ | F_lock _ _ => Acquire
  | M_unlock _ _ | F_unlock _ => Release
  | _ => Keep
  end.

(** A thread: where it stands, and the sizes of the pairs it has still
    to start. *)
Record thread : Type := Thread { pc : control; todo : list Z }.

(** The threads, what they share, and the thread that has the mutex. *)
Record world : Type := World {
  shared : state;
  mutex : option nat;
  threads : list thread
}.

(** Thread [i] takes its next step. There is none when the thread has
    finished, when it waits for a mutex another thread has, when the step
    is not defined, and for an answer the byte allocator does not give. *)
Definition world_step (i : nat) (r : Z) (c : world) : option world :=
  match threads c !! i with
  | None => None
  | Some th =>
      let granted :=
        match pc th, todo th with
        | Idle, size :: _ =>
            grant_ok (heap (shared c)) (size_t_wrap (size + 16)) r
        | _, _ => true
        end in
      let free_mutex :=
        match mutex_effect (pc th), mutex c with
        | Acquire, Some _ => false
        | _, _ => true
        end in
      if granted && free_mutex then
        match micro_step (pc th) (head (todo th)) r (shared c) with
        | Done (k, st) =>
            Some (World st
                    (match mutex_effect (pc th) with
                     | Acquire => Some i
                     | Release => None
                     | Keep => mutex c
                     end)
                    (<[i := Thread k (match pc th with
                                      | Idle => tail (todo th)
                                      | _ => todo th
                                      end)]> (threads c)))
        | _ => None
        end
      else None
  end.

(** A schedule says which thread steps next, and what the byte allocator
    answers should that step ask it. *)
Fixpoint run_schedule (sched : list (nat * Z)) (c : world) : option world :=
  match sched with
  | [] => Some c
  | (i, r) :: sched =>
      match world_step i r c with
      | Some c' => run_schedule sched c'
      | None => None
      end
  end.

(** M threads, thread i with the sizes [progs !! i] to allocate and free,
    before any of them has taken a step. *)
Definition start (progs : list (list Z)) : world :=
  World initial None (map (Thread Idle) progs).

Definition finished (th : thread) : Prop := pc th = Idle ∧ todo th = [].

(** ** What holds of the threads at every step *)

(** The thread at [k] is between g_mutex_lock() and g_mutex_unlock(). *)
Definition critical (k : control) : bool :=
  match k with
  | M_header _ _ | M_mem_load _ _ | M_mem_store _ _ _ | M_highwater _ _
  | M_allocs_load _ _ | M_allocs_store _ _ _ | M_unlock _ _
  | F_allocs_check _ _ | F_mem_load _ _ | F_mem_store _ _ _ | F_mem_check _
  | F_allocs_load _ | F_allocs_store _ _ | F_unlock _ => true
  | _ => false
  end.

(** The base of the block the thread at [k] has. *)
Definition held (k : control) : option Z :=
  match k with
  | Idle => None
  | M_lock _ buf | M_header _ buf => Some buf
  | M_mem_load _ buf | M_mem_store _ buf _ | M_highwater _ buf
  | M_allocs_load _ buf | M_allocs_store _ buf _ | M_unlock _ buf =>
      Some (buf - 16)
  | F_header s => Some (s - 16)
  | F_lock s _ | F_allocs_check s _ | F_mem_load s _ | F_mem_store s _ _
  | F_mem_check s | F_allocs_load s | F_allocs_store s _ | F_unlock s
  | F_release s => Some s
  end.

(** The bytes the thread at [k] has added to vips_tracked_mem and not yet
    taken back, and its share of vips_tracked_allocs. *)
Definition bytes_in (m : gmap Z Z) (k : control) : Z :=
  match k with
  | M_highwater size _ | M_allocs_load size _ | M_allocs_store size _ _
  | M_unlock size _ => size
  | F_header s => default 0 (m !! (s - 16))
  | F_lock _ size | F_allocs_check _ size | F_mem_load _ size
  | F_mem_store _ size _ => size
  | _ => 0
  end.

Definition count_in (k : control) : Z :=
  match k with
  | M_unlock _ _ | F_header _ | F_lock _ _ | F_allocs_check _ _
  | F_mem_load _ _ | F_mem_store _ _ _ | F_mem_check _ | F_allocs_load _
  | F_allocs_store _ _ => 1
  | _ => 0
  end.

Definition total_of (f : control → Z) (ths : list thread) : Z :=
  foldr (λ th acc, f (pc th) + acc) 0 ths.

(** The locals of the thread at [k] agree with what is shared: the header
    it stored is in place, and a counter it loaded has not changed since. *)
Definition locals_ok (st : state) (k : control) : Prop :=
  match k with
  | M_mem_load size buf | M_highwater size buf | M_allocs_load size buf
  | M_unlock size buf => memory st !! (buf - 16) = Some size
  | M_mem_store size buf tmp =>
      memory st !! (buf - 16) = Some size ∧ tmp = vips_tracked_mem st
  | M_allocs_store size buf tmp =>
      memory st !! (buf - 16) = Some size ∧ tmp = vips_tracked_allocs st
  | F_mem_store _ _ tmp => tmp = vips_tracked_mem st
  | F_allocs_store _ tmp => tmp = vips_tracked_allocs st
  | _ => True
  end.

Record sound (c : world) : Prop := Sound {
  one_in_section :
    ∀ i th, threads c !! i = Some th → critical (pc th) = true →
            mutex c = Some i;
  locals_agree :
    ∀ i th, threads c !! i = Some th → locals_ok (shared c) (pc th);
  held_live :
    ∀ i th b, threads c !! i = Some th → held (pc th) = Some b →
              ∃ n, In (b, n) (heap (shared c));
  held_apart :
    ∀ i j th th' b,
      threads c !! i = Some th → threads c !! j = Some th' →
      held (pc th) = Some b → held (pc th') = Some b → i = j;
  blocks_inside : Forall (within 1 (2 ^ w)) (heap (shared c));
  mem_size_t : 0 <= vips_tracked_mem (shared c) < 2 ^ w;
  mem_balance :
    (vips_tracked_mem (shared c)
     - total_of (bytes_in (memory (shared c))) (threads c)) mod 2 ^ w = 0;
  allocs_balance :
    vips_tracked_allocs (shared c) = total_of count_in (threads c)
}.

(** ** The history of a sequence *)

(** Current bytes after each call of a sequence, in the order of the
    calls, as far as the calls are defined. *)
Fixpoint bytes_after (cs : list call) (st : state) : list Z :=
  match cs with
  | [] => []
  | c :: cs =>
      match perform c st with
      | Done (_, st') => vips_tracked_mem st' :: bytes_after cs st'
      | _ => []
      end
  end.

(** The largest of [start] and the values of [l]. *)
Definition peak (start : Z) (l : list Z) : Z := foldr Z.max start l.

(** A report of the "out of memory" pair of vips_tracked_malloc(). *)
Definition is_out_of_memory (e : event) : Prop :=
  match e with
  | error_event _ (out_of_memory _) | warn_event _ (out_of_memory _) => True
  | _ => False
  end.

(** ** What lets the threads go on *)

Definition sizes_fit (td : list Z) : Prop :=
  Forall (λ size, 0 <= size <= SIZE_MAX - 16) td.

(** The thread that has the mutex is between g_mutex_lock() and
    g_mutex_unlock(); every live block has room for its header; the sizes
    still to allocate fit with their headers; a thread about to read a
    header finds one; and there are [n] threads. *)
Record ready (n : nat) (c : world) : Prop := Ready {
  holder_in_section :
    ∀ i, mutex c = Some i →
         ∃ th, threads c !! i = Some th ∧ critical (pc th) = true;
  blocks_hold_header : Forall (λ blk, 16 <= snd blk) (heap (shared c));
  todo_fits : ∀ i th, threads c !! i = Some th → sizes_fit (todo th);
  header_there :
    ∀ i th s, threads c !! i = Some th → pc th = F_header s →
              is_Some (memory (shared c) !! (s - 16));
  threads_counted : length (threads c) = n
}.

(** The steps the thread at [k] has still to take in the pair it is in,
    and the steps a thread has still to take in all: nineteen for each
    pair it has not started. *)
Definition steps_left (k : control) : Z :=
  match k with
  | Idle => 0
  | M_lock _ _ => 18
  | M_header _ _ => 17
  | M_mem_load _ _ => 16
  | M_mem_store _ _ _ => 15
  | M_highwater _ _ => 14
  | M_allocs_load _ _ => 13
  | M_allocs_store _ _ _ => 12
  | M_unlock _ _ => 11
  | F_header _ => 10
  | F_lock _ _ => 9
  | F_allocs_check _ _ => 8
  | F_mem_load _ _ => 7
  | F_mem_store _ _ _ => 6
  | F_mem_check _ => 5
  | F_allocs_load _ => 4
  | F_allocs_store _ _ => 3
  | F_unlock _ => 2
  | F_release _ => 1
  end.

Definition work (th : thread) : Z :=
  19 * Z.of_nat (length (todo th)) + steps_left (pc th).

Definition work_left (ths : list thread) : Z :=
  foldr (λ th acc, work th + acc) 0 ths.

(** The pairs the threads are given. *)
Definition pairs (progs : list (list Z)) : Z :=
  foldr (λ td acc, Z.of_nat (length td) + acc) 0 progs.

(** ** Allocations for an owner *)

(** Allocations in a row for [object], each request with the answer of
    the byte allocator: the pointers returned, in order. *)
Fixpoint allocate_all_for (object : Z) (reqs : list (Z * Z)) : M (list Z) :=
  match reqs with
  | [] => ret []
  | (size, r) :: reqs =>
      let! p := vips_tracked_malloc object size r in
      let! ps := allocate_all_for object reqs in
      ret (p :: ps)
  end.

Definition malloc_call_for (object : Z) (q : Z * Z) : call :=
  tracked_malloc object (fst q) (snd q).

Hypothesis w_range : 8 <= w <= 128.

Lemma size_t_modulus_pos : 0 < 2 ^ w.
Proof. apply Z.pow_pos_nonneg; lia. Qed.

Lemma size_t_modulus_large : 256 <= 2 ^ w.
Proof.
  change 256 with (2 ^ 8). apply Z.pow_le_mono_r; lia.
Qed.

Lemma size_t_wrap_range z : 0 <= size_t_wrap z < 2 ^ w.
Proof. apply Z.mod_pos_bound, size_t_modulus_pos. Qed.

Lemma size_t_wrap_small z : 0 <= z < 2 ^ w → size_t_wrap z = z.
Proof. apply Z.mod_small. Qed.

Lemma sizeof_size_t_le : sizeof_size_t <= 16.
Proof.
  unfold sizeof_size_t.
  assert (w / 8 <= 128 / 8) by (apply Z.div_le_mono; lia).
  change (128 / 8) with 16 in *. lia.
Qed.

Lemma vips_tracked_free_eq s st :
  vips_tracked_free s st =
  match memory st !! (s - 16) with
  | None => Undefined
  | Some size =>
      if (INT_MIN <=? vips_tracked_allocs st - 1)
         && (vips_tracked_allocs st - 1 <=? INT_MAX)
      then Done (tt, freed size (s - 16) st)
      else Undefined
  end.
Proof.
  unfold vips_tracked_free, bind, load_size_t.
  destruct (memory st !! (s - 16)) as [size|]; [|reflexivity].
  cbn.
  assert (Hdead : (size_t_wrap (vips_tracked_mem st - size) <? 0) = false).
  { apply Z.ltb_ge. apply size_t_wrap_range. }
  unfold freed, int_op, when.
  destruct (vips_tracked_allocs st <=? 0); cbn; rewrite Hdead; cbn;
    destruct ((INT_MIN <=? vips_tracked_allocs st - 1)
              && (vips_tracked_allocs st - 1 <=? INT_MAX)); reflexivity.
Qed.

Lemma vips_tracked_malloc_eq object size r st :
  vips_tracked_malloc object size r st =
  let total := size_t_wrap (size + 16) in
  if r =? NULL then
    if DEBUG then Aborted else Done (NULL, refused total st)
  else if sizeof_size_t <=? total then
    if (INT_MIN <=? vips_tracked_allocs st + 1)
       && (vips_tracked_allocs st + 1 <=? INT_MAX)
    then Done (r + 16, allocated object total r st)
    else Undefined
  else Undefined.
Proof.
  unfold vips_tracked_malloc, bind, g_try_malloc.
  destruct (r =? NULL) eqn:Hr; cbn.
  - destruct DEBUG; reflexivity.
  - rewrite Hr. cbn. unfold store_size_t, block_size. cbn.
    rewrite Z.eqb_refl. cbn.
    destruct (sizeof_size_t <=? size_t_wrap (size + 16)); [|reflexivity].
    cbn. unfold int_op, when, allocated.
    destruct (vips_tracked_mem_highwater st
              <? size_t_wrap (vips_tracked_mem st + size_t_wrap (size + 16)));
      cbn;
      destruct ((INT_MIN <=? vips_tracked_allocs st + 1)
                && (vips_tracked_allocs st + 1 <=? INT_MAX)); cbn;
      try reflexivity;
      destruct (object =? NULL); reflexivity.
Qed.

(** ** Blocks that lie apart fit the address space together *)

Lemma apart_true b n blk :
  apart b n blk = true ↔ b + n <= fst blk ∨ fst blk + snd blk <= b.
Proof.
  unfold apart. rewrite orb_true_iff, !Z.leb_le. reflexivity.
Qed.

Lemma total_bytes_cons blk hp :
  total_bytes (blk :: hp) = snd blk + total_bytes hp.
Proof. reflexivity. Qed.

Lemma total_bytes_nonneg lo hi hp :
  Forall (within lo hi) hp → 0 <= total_bytes hp.
Proof.
  induction 1 as [|blk hp [Hn _] _ IH]; [reflexivity|].
  rewrite total_bytes_cons. lia.
Qed.

Lemma total_bytes_split (p : Z * Z → bool) hp :
  total_bytes hp
  = total_bytes (List.filter p hp)
    + total_bytes (List.filter (λ blk, negb (p blk)) hp).
Proof.
  induction hp as [|blk hp IH]; [reflexivity|].
  cbn [List.filter]. destruct (p blk); cbn [negb];
    rewrite !total_bytes_cons, IH; lia.
Qed.

Lemma Forall_list_filter {A} (P : A → Prop) (p : A → bool) l :
  Forall P l → Forall P (List.filter p l).
Proof.
  induction 1 as [|x l Hx _ IH]; [constructor|].
  cbn. destruct (p x); [constructor|]; assumption.
Qed.

Lemma pairwise_apart_filter (p : Z * Z → bool) hp :
  pairwise_apart hp → pairwise_apart (List.filter p hp).
Proof.
  induction hp as [|blk hp IH]; [trivial|].
  intros [Hhd Htl]. cbn [List.filter].
  destruct (p blk); [split|]; auto using Forall_list_filter.
Qed.

Lemma length_list_filter_le {A} (p : A → bool) l :
  (length (List.filter p l) <= length l)%nat.
Proof.
  induction l as [|x l IH]; [reflexivity|].
  cbn. destruct (p x); cbn; lia.
Qed.

(** Blocks of positive size inside [lo, hi) that share no byte have at
    most hi - lo bytes together: the first block cuts the others into
    those below it and those above it. *)
Lemma total_bytes_bounded (k : nat) :
  ∀ hp lo hi,
    (length hp <= k)%nat → lo <= hi →
    Forall (within lo hi) hp → pairwise_apart hp →
    total_bytes hp <= hi - lo.
Proof.
  induction k as [|k IH]; intros hp lo hi Hlen Hle Hin Hap.
  - destruct hp; [cbn; lia | cbn in Hlen; lia].
  - destruct hp as [|[b n] hp]; [cbn; lia|].
    cbn in Hlen. apply Forall_cons in Hin as [(Hn & Hlo & Hhi) Hin].
    destruct Hap as [Hhd Hap]. cbn [fst snd] in *.
    set (below := λ blk : Z * Z, fst blk + snd blk <=? b).
    rewrite total_bytes_cons, (total_bytes_split below). cbn [snd].
    assert (total_bytes (List.filter below hp) <= b - lo) as Hb.
    { apply IH.
      - pose proof (length_list_filter_le below hp). lia.
      - lia.
      - clear -Hin. induction Hin as [|blk hp (Hn' & Hlo' & Hhi') _ IHin];
          [constructor|].
        cbn [List.filter]. destruct (below blk) eqn:E; [|assumption].
        constructor; [|assumption].
        apply Z.leb_le in E. repeat split; auto.
      - apply pairwise_apart_filter, Hap. }
    assert (total_bytes (List.filter (λ blk, negb (below blk)) hp)
            <= hi - (b + n)) as Ha.
    { apply IH.
      - pose proof (length_list_filter_le (λ blk, negb (below blk)) hp). lia.
      - lia.
      - clear -Hin Hhd.
        induction Hin as [|blk hp (Hn' & Hlo' & Hhi') _ IHin];
          [constructor|].
        apply Forall_cons in Hhd as [Hblk Hhd].
        cbn [List.filter]. destruct (below blk) eqn:E; cbn [negb]; auto.
        constructor; auto.
        apply Z.leb_gt in E. apply apart_true in Hblk.
        repeat split; auto; lia.
      - apply pairwise_apart_filter, Hap. }
    lia.
Qed.

Lemma total_bytes_fits hp :
  Forall (within 1 (2 ^ w)) hp → pairwise_apart hp →
  total_bytes hp <= 2 ^ w - 1.
Proof.
  intros. apply (total_bytes_bounded (length hp)); auto.
  pose proof size_t_modulus_pos. lia.
Qed.

(** ** Releasing a live block *)

Lemma apart_other_base b n hp :
  0 < n → Forall (within 1 (2 ^ w)) hp →
  Forall (λ blk', apart b n blk' = true) hp →
  Forall (λ blk', fst blk' ≠ b) hp.
Proof.
  intros Hn Hin Hap. induction Hin as [|blk hp (Hn' & _) _ IH];
    [constructor|].
  apply Forall_cons in Hap as [Hblk Hap]. constructor; auto.
  apply apart_true in Hblk. lia.
Qed.

Lemma filter_other_base b (hp : list (Z * Z)) :
  Forall (λ blk', fst blk' ≠ b) hp →
  List.filter (λ blk, negb (fst blk =? b)) hp = hp.
Proof.
  induction 1 as [|blk hp Hne _ IH]; [reflexivity|].
  cbn. destruct (Z.eqb_spec (fst blk) b); [contradiction|].
  cbn. now rewrite IH.
Qed.

Lemma release_block hp s n :
  Forall (within 1 (2 ^ w)) hp → pairwise_apart hp → In (s, n) hp →
  total_bytes (List.filter (λ blk, negb (fst blk =? s)) hp)
  = total_bytes hp - n
  ∧ Z.of_nat (length (List.filter (λ blk, negb (fst blk =? s)) hp))
    = Z.of_nat (length hp) - 1.
Proof.
  induction hp as [|blk hp IH]; intros Hin Hap Hmem; [destruct Hmem|].
  apply Forall_cons in Hin as [Hblk Hin]. destruct Hap as [Hhd Hap].
  pose proof Hblk as (Hn & _).
  pose proof (apart_other_base _ _ _ Hn Hin Hhd) as Hbases.
  destruct Hmem as [->|Hmem].
  - cbn [fst snd] in *. cbn [List.filter fst]. rewrite Z.eqb_refl.
    cbn [negb].
    rewrite (filter_other_base _ _ Hbases), total_bytes_cons.
    cbn [snd length]. lia.
  - assert (fst blk ≠ s) as Hne.
    { rewrite Forall_forall in Hbases. intros <-.
      apply list_elem_of_In in Hmem. apply (Hbases _ Hmem). reflexivity. }
    cbn [List.filter]. destruct (Z.eqb_spec (fst blk) s); [contradiction|].
    cbn [negb]. destruct (IH Hin Hap Hmem) as [IH1 IH2].
    rewrite !total_bytes_cons, IH1. cbn [length]. lia.
Qed.

Lemma live_block_found (hp : list (Z * Z)) s :
  existsb (λ blk, fst blk =? s) hp = true → ∃ n, In (s, n) hp.
Proof.
  intros H. apply existsb_exists in H as ([b n] & Hin & Hb).
  apply Z.eqb_eq in Hb. cbn in Hb. subst b. eauto.
Qed.

Lemma grant_ok_true hp n r :
  grant_ok hp n r = true →
  r = NULL
  ∨ (r ≠ NULL ∧ 0 < n ∧ 0 < r ∧ r + n <= 2 ^ w
     ∧ Forall (λ blk', apart r n blk' = true) hp).
Proof.
  unfold grant_ok. rewrite orb_true_iff, !andb_true_iff.
  rewrite Z.eqb_eq, !Z.ltb_lt, Z.leb_le, forallb_forall.
  intros [->|(((Hn & Hr) & Hhi) & Hall)]; [now left|right].
  repeat split; auto.
  - unfold NULL. lia.
  - apply Forall_forall. intros blk Hblk. apply Hall.
    now apply list_elem_of_In.
Qed.

(** ** The calls keep the accounting consistent *)

Lemma int_check_true z :
  (INT_MIN <=? z) && (z <=? INT_MAX) = true ↔ int_range z.
Proof.
  unfold int_range. rewrite andb_true_iff, !Z.leb_le. reflexivity.
Qed.

Lemma vips_tracked_malloc_done object size r st p st' :
  vips_tracked_malloc object size r st = Done (p, st') →
  (r = NULL ∧ DEBUG = false ∧ p = NULL
   ∧ st' = refused (size_t_wrap (size + 16)) st)
  ∨ (r ≠ NULL ∧ sizeof_size_t <= size_t_wrap (size + 16)
     ∧ int_range (vips_tracked_allocs st + 1) ∧ p = r + 16
     ∧ st' = allocated object (size_t_wrap (size + 16)) r st).
Proof.
  rewrite vips_tracked_malloc_eq. cbv zeta.
  destruct (Z.eqb_spec r NULL) as [->|Hr].
  - destruct DEBUG; [discriminate|]. intros [= <- <-]. now left.
  - destruct (Z.leb_spec sizeof_size_t (size_t_wrap (size + 16)));
      [|discriminate].
    destruct ((INT_MIN <=? vips_tracked_allocs st + 1)
              && (vips_tracked_allocs st + 1 <=? INT_MAX)) eqn:Hint;
      [|discriminate].
    apply int_check_true in Hint. intros [= <- <-]. right. auto.
Qed.

Lemma vips_tracked_free_done s st u st' :
  vips_tracked_free s st = Done (u, st') →
  ∃ size, memory st !! (s - 16) = Some size
          ∧ int_range (vips_tracked_allocs st - 1)
          ∧ st' = freed size (s - 16) st.
Proof.
  rewrite vips_tracked_free_eq.
  destruct (memory st !! (s - 16)) as [size|]; [|discriminate].
  destruct ((INT_MIN <=? vips_tracked_allocs st - 1)
            && (vips_tracked_allocs st - 1 <=? INT_MAX)) eqn:Hint;
    [|discriminate].
  apply int_check_true in Hint. intros [= <-]. eauto.
Qed.

Lemma refused_consistent total st : consistent st → consistent (refused total st).
Proof. intros []. constructor; assumption. Qed.

Lemma allocated_consistent object total r st :
  consistent st → r ≠ NULL → grant_ok (heap st) total r = true →
  consistent (allocated object total r st).
Proof.
  intros [Hin Hap Hhd Hmem Hcnt Hhw Hsz] Hr Hg.
  apply grant_ok_true in Hg as [?|(_ & Hn & Hr0 & Hhi & Hfresh)];
    [contradiction|].
  assert (Forall (within 1 (2 ^ w)) ((r, total) :: heap st)) as Hin'.
  { constructor; [|assumption]. unfold within. cbn. lia. }
  assert (pairwise_apart ((r, total) :: heap st)) as Hap'.
  { split; assumption. }
  pose proof (total_bytes_fits _ Hin' Hap') as Hfit.
  pose proof (total_bytes_nonneg _ _ _ Hin) as Hnn.
  rewrite total_bytes_cons in Hfit. cbn [snd] in Hfit.
  assert (size_t_wrap (vips_tracked_mem st + total)
          = vips_tracked_mem st + total) as Hw.
  { apply size_t_wrap_small. lia. }
  constructor; cbn [allocated heap memory vips_tracked_mem
                    vips_tracked_allocs vips_tracked_mem_highwater];
    auto.
  - constructor; cbn [fst snd].
    + apply lookup_insert_eq.
    + pose proof (apart_other_base _ _ _ Hn Hin Hfresh) as Hbases.
      clear -Hhd Hbases. induction Hhd as [|blk hp Hblk _ IH];
        [constructor|].
      apply Forall_cons in Hbases as [Hne Hbases].
      constructor; auto. rewrite lookup_insert_ne; auto.
  - rewrite Hw, total_bytes_cons. cbn [snd]. lia.
  - cbn [length]. lia.
  - rewrite Hw.
    destruct (Z.ltb_spec (vips_tracked_mem_highwater st)
                (vips_tracked_mem st + total)); lia.
  - rewrite Hw.
    destruct (Z.ltb_spec (vips_tracked_mem_highwater st)
                (vips_tracked_mem st + total)); lia.
Qed.

Lemma freed_consistent n s st :
  consistent st → In (s, n) (heap st) → consistent (freed n s st).
Proof.
  intros [Hin Hap Hhd Hmem Hcnt Hhw Hsz] Hlive.
  destruct (release_block _ _ _ Hin Hap Hlive) as [Hsum Hlen].
  pose proof (total_bytes_nonneg _ _ _
                (Forall_list_filter _ (λ blk, negb (fst blk =? s)) _ Hin))
    as Hnn.
  pose proof (total_bytes_fits _ Hin Hap) as Hfit.
  assert (0 < n) as Hn.
  { rewrite Forall_forall in Hin.
    apply (Hin (s, n)). now apply list_elem_of_In. }
  assert (size_t_wrap (vips_tracked_mem st - n) = vips_tracked_mem st - n)
    as Hw.
  { apply size_t_wrap_small. lia. }
  constructor; cbn [freed heap memory vips_tracked_mem
                    vips_tracked_allocs vips_tracked_mem_highwater];
    auto using Forall_list_filter, pairwise_apart_filter.
  - rewrite Hw, Hsum. lia.
  - lia.
  - rewrite Hw. lia.
Qed.

Lemma live_header n s st :
  consistent st → In (s, n) (heap st) → memory st !! s = Some n.
Proof.
  intros [_ _ Hhd _ _ _ _] Hlive. rewrite Forall_forall in Hhd.
  apply (Hhd (s, n)). now apply list_elem_of_In.
Qed.

Lemma perform_consistent c st u st' :
  consistent st → call_ok c st = true →
  perform c st = Done (u, st') → consistent st'.
Proof.
  intros Hc Hok. destruct c as [object size r|s]; cbn [perform call_ok] in *.
  - unfold bind.
    destruct (vips_tracked_malloc object size r st) as [[p st1]| |] eqn:E;
      [|discriminate..].
    intros [= _ <-].
    apply vips_tracked_malloc_done in E
      as [(_ & _ & _ & ->)|(Hr & _ & _ & _ & ->)].
    + now apply refused_consistent.
    + now apply allocated_consistent.
  - intros E. apply vips_tracked_free_done in E as (size & Hld & _ & ->).
    apply live_block_found in Hok as [n Hlive].
    rewrite (live_header _ _ _ Hc Hlive) in Hld. injection Hld as <-.
    now apply freed_consistent.
Qed.

Lemma run_nil st : run [] st = Done (tt, st).
Proof. reflexivity. Qed.

Lemma run_cons c cs st :
  run (c :: cs) st
  = match perform c st with
    | Done (_, st') => run cs st'
    | Aborted => Aborted
    | Undefined => Undefined
    end.
Proof. reflexivity. Qed.

Lemma run_consistent cs :
  ∀ st u st',
    consistent st → calls_ok cs st = true →
    run cs st = Done (u, st') → consistent st'.
Proof.
  induction cs as [|c cs IH]; intros st u st' Hc Hok.
  - rewrite run_nil. intros [= _ <-]. exact Hc.
  - rewrite run_cons. cbn [calls_ok] in Hok.
    apply andb_true_iff in Hok as [Hc1 Hrest].
    destruct (perform c st) as [[u1 st1]| |] eqn:E; [|discriminate..].
    intros Hrun. apply (IH st1 u st'); auto.
    eapply perform_consistent; eauto.
Qed.

Lemma initial_consistent : consistent initial.
Proof.
  pose proof size_t_modulus_pos.
  constructor; cbn; try constructor; try reflexivity; lia.
Qed.

(** ** The read accessors *)

Lemma vips_tracked_get_mem_eq st :
  vips_tracked_get_mem st = Done (vips_tracked_mem st, st).
Proof. reflexivity. Qed.

Lemma vips_tracked_get_mem_highwater_eq st :
  vips_tracked_get_mem_highwater st
  = Done (vips_tracked_mem_highwater st, st).
Proof. reflexivity. Qed.

Lemma vips_tracked_get_allocs_eq st :
  vips_tracked_get_allocs st = Done (vips_tracked_allocs st, st).
Proof. reflexivity. Qed.

(** ** Allocation followed by release *)

Lemma size_t_wrap_add_sub a t :
  0 <= a < 2 ^ w → size_t_wrap (size_t_wrap (a + t) - t) = a.
Proof.
  intros Ha. unfold size_t_wrap.
  rewrite Zminus_mod_idemp_l.
  replace (a + t - t) with a by lia. now apply Z.mod_small.
Qed.

(** C2: a successful allocation without owner that is freed at once
    leaves current bytes and the count where they were: the header at
    p - 16 holds the padded size the allocation added, and the free
    subtracts what it reads there. *)
Theorem malloc_then_free_restores size r st p st1 :
  int_range (vips_tracked_allocs st) →
  size_t_range (vips_tracked_mem st) →
  vips_tracked_malloc NULL size r st = Done (p, st1) →
  p ≠ NULL →
  memory st1 !! (p - 16) = Some (size_t_wrap (size + 16))
  ∧ vips_tracked_mem st1
    = size_t_wrap (vips_tracked_mem st + size_t_wrap (size + 16))
  ∧ vips_tracked_allocs st1 = vips_tracked_allocs st + 1
  ∧ ∃ st2,
      vips_tracked_free p st1 = Done (tt, st2)
      ∧ vips_tracked_mem st2
        = size_t_wrap (vips_tracked_mem st1 - size_t_wrap (size + 16))
      ∧ vips_tracked_mem st2 = vips_tracked_mem st
      ∧ vips_tracked_allocs st2 = vips_tracked_allocs st.
Proof.
  intros Hint [Hlo Hhi] Hm Hp. unfold SIZE_MAX in Hhi.
  apply vips_tracked_malloc_done in Hm
    as [(_ & _ & -> & _)|(Hr & _ & Hint1 & -> & ->)]; [contradiction|].
  replace (r + 16 - 16) with r by lia.
  assert (memory (allocated NULL (size_t_wrap (size + 16)) r st) !! r
          = Some (size_t_wrap (size + 16))) as Hhdr
    by apply lookup_insert_eq.
  repeat split; auto.
  rewrite vips_tracked_free_eq.
  replace (r + 16 - 16) with r by lia. rewrite Hhdr.
  cbn [allocated vips_tracked_allocs].
  replace (vips_tracked_allocs st + 1 - 1) with (vips_tracked_allocs st)
    by lia.
  apply int_check_true in Hint. rewrite Hint.
  eexists. split; [reflexivity|].
  cbn [freed allocated vips_tracked_mem vips_tracked_allocs].
  repeat split; [apply size_t_wrap_add_sub|]; lia.
Qed.

(** ** Frees beyond the allocations *)

Lemma released_not_live (hp : list (Z * Z)) b :
  existsb (λ blk, fst blk =? b)
    (List.filter (λ blk, negb (fst blk =? b)) hp) = false.
Proof.
  induction hp as [|blk hp IH]; [reflexivity|].
  cbn [List.filter]. destruct (fst blk =? b) eqn:E; cbn [negb].
  - exact IH.
  - cbn [existsb]. now rewrite E.
Qed.



(** ** Exhaustion *)

(** C7, as amended: when the byte allocator answers NULL and DEBUG is
    not defined, vips_tracked_malloc() returns NULL after one report on
    the error channel and one on the warning channel, both filled with
    the same figure, and the counters, the live blocks and the handlers
    stay as they were. The figure is the whole megabytes of the padded
    request wherever the padding does not wrap and the megabytes fit an
    int. *)
Theorem exhaustion_reported object size st :
  DEBUG = false →
  ∃ st' mb,
    vips_tracked_malloc object size NULL st = Done (NULL, st')
    ∧ log st'
      = log st
        ++ [error_event "vips_tracked" (out_of_memory mb);
            warn_event "vips_tracked" (out_of_memory mb)]
    ∧ (0 <= size <= SIZE_MAX - 16 →
       (size + 16) / 1048576 <= INT_MAX →
       mb = Some ((size + 16) / 1048576))
    ∧ vips_tracked_mem st' = vips_tracked_mem st
    ∧ vips_tracked_mem_highwater st' = vips_tracked_mem_highwater st
    ∧ vips_tracked_allocs st' = vips_tracked_allocs st
    ∧ heap st' = heap st
    ∧ handlers st' = handlers st.
Proof.
  intros Hd.
  exists (refused (size_t_wrap (size + 16)) st),
         (megabytes (size_t_wrap (size + 16))).
  rewrite vips_tracked_malloc_eq. cbv zeta. rewrite Hd. cbn.
  repeat split.
  - now rewrite <- app_assoc.
  - intros [Hlo Hhi] Hfit. unfold SIZE_MAX in Hhi.
    rewrite (size_t_wrap_small (size + 16)) by lia.
    unfold megabytes.
    destruct (Z.leb_spec ((size + 16) / 1048576) INT_MAX);
      [reflexivity | lia].
Qed.

(** X7: With DEBUG defined, a request the byte allocator refuses ends in
    g_assert( 0 ): nothing is reported and nothing is returned. *)
Lemma exhaustion_aborts_in_debug object size st :
  DEBUG = true → vips_tracked_malloc object size NULL st = Aborted.
Proof.
  intros Hd. rewrite vips_tracked_malloc_eq. cbv zeta. now rewrite Hd.
Qed.

(** ** Allocation with an owner *)

Lemma filter_none_owned object (hs : list (Z * Z)) :
  Forall (λ h, fst h ≠ object) hs →
  List.filter (λ h, fst h =? object) hs = []
  ∧ List.filter (λ h, negb (fst h =? object)) hs = hs.
Proof.
  induction 1 as [|h hs Hne _ [IH1 IH2]]; [split; reflexivity|].
  cbn. destruct (Z.eqb_spec (fst h) object); [contradiction|].
  cbn. now rewrite IH1, IH2.
Qed.

(** C8: an allocation the byte allocator refuses connects nothing to the
    owner. A granted one connects vips_tracked_cb() on the pointer it
    returns, once; destroying the owner is then one vips_tracked_free()
    of that pointer, which leaves the count where it was before the
    allocation and the owner without handlers. *)
Theorem owner_releases_block object size r st p st1 :
  vips_tracked_malloc object size r st = Done (p, st1) →
  (r = NULL → p = NULL ∧ handlers st1 = handlers st)
  ∧ (r ≠ NULL → object ≠ NULL →
     p = r + 16
     ∧ handlers st1 = handlers st ++ [(object, p)]
     ∧ (int_range (vips_tracked_allocs st) →
        Forall (λ h, fst h ≠ object) (handlers st) →
        ∃ st2,
          vips_object_postclose object st1 = Done (tt, st2)
          ∧ vips_tracked_free p (set_handlers (handlers st) st1)
            = Done (tt, st2)
          ∧ vips_tracked_allocs st1 = vips_tracked_allocs st + 1
          ∧ vips_tracked_allocs st2 = vips_tracked_allocs st
          ∧ handlers st2 = handlers st)).
Proof.
  intros Hm.
  apply vips_tracked_malloc_done in Hm
    as [(-> & _ & -> & ->)|(Hr & _ & Hint1 & -> & ->)].
  - split; [split; reflexivity | intros []; reflexivity].
  - split; [intros; contradiction|]. intros _ Hobj.
    set (total := size_t_wrap (size + 16)).
    set (st1 := allocated object total r st).
    assert (handlers st1 = handlers st ++ [(object, r + 16)]) as Hh.
    { unfold st1. cbn [allocated handlers].
      destruct (Z.eqb_spec object NULL); [contradiction | reflexivity]. }
    repeat split; auto.
    intros Hint Hnone.
    destruct (filter_none_owned _ _ Hnone) as [Hmine Hothers].
    assert (memory st1 !! r = Some total) as Hhdr by apply lookup_insert_eq.
    assert (vips_tracked_allocs st1 = vips_tracked_allocs st + 1) as Ha
      by reflexivity.
    assert ((INT_MIN <=? vips_tracked_allocs st1 - 1)
            && (vips_tracked_allocs st1 - 1 <=? INT_MAX) = true) as Hck.
    { apply int_check_true. rewrite Ha.
      now replace (vips_tracked_allocs st + 1 - 1)
        with (vips_tracked_allocs st) by lia. }
    exists (freed total r (set_handlers (handlers st) st1)).
    repeat split.
    + unfold vips_object_postclose, bind, get, modify. rewrite Hh.
      rewrite !List.filter_app, Hmine, Hothers. cbn [List.filter fst].
      rewrite Z.eqb_refl. cbn [negb app run_callbacks].
      rewrite app_nil_r. unfold bind, vips_tracked_cb.
      rewrite vips_tracked_free_eq.
      replace (r + 16 - 16) with r by lia.
      change (memory (set_handlers (handlers st) st1)) with (memory st1).
      change (vips_tracked_allocs (set_handlers (handlers st) st1))
        with (vips_tracked_allocs st1).
      rewrite Hhdr, Hck. reflexivity.
    + rewrite vips_tracked_free_eq.
      replace (r + 16 - 16) with r by lia.
      change (memory (set_handlers (handlers st) st1)) with (memory st1).
      change (vips_tracked_allocs (set_handlers (handlers st) st1))
        with (vips_tracked_allocs st1).
      rewrite Hhdr, Hck. reflexivity.
    + cbn [freed set_handlers vips_tracked_allocs]. rewrite Ha. lia.
Qed.

(** ** Allocations in a row *)

Lemma allocate_all_cons q reqs st :
  allocate_all (q :: reqs) st
  = match vips_tracked_malloc NULL (fst q) (snd q) st with
    | Done (p, st1) =>
        match allocate_all reqs st1 with
        | Done (ps, st2) => Done (p :: ps, st2)
        | Aborted => Aborted
        | Undefined => Undefined
        end
    | Aborted => Aborted
    | Undefined => Undefined
    end.
Proof. destruct q as [size r]. reflexivity. Qed.

Lemma padded_bytes_cons q reqs :
  padded_bytes (q :: reqs) = fst q + 16 + padded_bytes reqs.
Proof. reflexivity. Qed.

Lemma allocate_all_sums reqs :
  ∀ st ps st',
    consistent st →
    calls_ok (map malloc_call reqs) st = true →
    Forall (λ q, 0 <= fst q <= SIZE_MAX - 16) reqs →
    allocate_all reqs st = Done (ps, st') →
    Forall (λ p, p ≠ NULL) ps →
    consistent st'
    ∧ vips_tracked_mem st' = vips_tracked_mem st + padded_bytes reqs
    ∧ vips_tracked_allocs st'
      = vips_tracked_allocs st + Z.of_nat (length reqs).
Proof.
  induction reqs as [|q reqs IH]; intros st ps st' Hc Hok Hsz.
  - intros [= <- <-] _. split; [assumption|]. cbn. lia.
  - rewrite allocate_all_cons.
    cbn [map calls_ok call_ok malloc_call perform] in Hok.
    apply andb_true_iff in Hok as [Hg Hrest]. unfold bind in Hrest.
    apply Forall_cons in Hsz as [[Hq0 Hq1] Hsz]. unfold SIZE_MAX in Hq1.
    destruct (vips_tracked_malloc NULL (fst q) (snd q) st)
      as [[p st1]| |] eqn:Em; [|discriminate..].
    destruct (allocate_all reqs st1) as [[ps1 st2]| |] eqn:Ea;
      [|discriminate..].
    intros [= <- <-] Hps. apply Forall_cons in Hps as [Hp Hps].
    apply vips_tracked_malloc_done in Em
      as [(_ & _ & -> & _)|(Hr & _ & _ & _ & ->)]; [contradiction|].
    rewrite (size_t_wrap_small (fst q + 16)) in * by lia.
    pose proof (allocated_consistent NULL _ _ _ Hc Hr Hg) as Hc1.
    destruct (IH _ _ _ Hc1 Hrest Hsz Ea Hps) as (Hc2 & Hm2 & Ha2).
    split; [assumption|].
    rewrite Hm2, Ha2, padded_bytes_cons.
    rewrite (mem_is_sum _ Hc1), (mem_is_sum _ Hc).
    cbn [allocated heap vips_tracked_allocs length].
    rewrite total_bytes_cons. cbn [snd]. lia.
Qed.

(** X15: from the initial state, N allocations in a row that all return
    a pointer, of sizes at most SIZE_MAX - 16 and into blocks the byte
    allocator keeps apart, leave current bytes at the sum of the s_i + 16
    and the count at N. *)
Theorem allocations_add_up reqs ps st :
  Forall (λ q, 0 <= fst q <= SIZE_MAX - 16) reqs →
  calls_ok (map malloc_call reqs) initial = true →
  allocate_all reqs initial = Done (ps, st) →
  Forall (λ p, p ≠ NULL) ps →
  vips_tracked_mem st = padded_bytes reqs
  ∧ vips_tracked_allocs st = Z.of_nat (length reqs).
Proof.
  intros Hsz Hok Ha Hps.
  destruct (allocate_all_sums reqs _ _ _ initial_consistent Hok Hsz Ha Hps)
    as (_ & Hm & Hn).
  cbn [initial vips_tracked_mem vips_tracked_allocs] in *. split; lia.
Qed.

(** ** The high-water mark *)

Lemma perform_highwater c st u st' :
  perform c st = Done (u, st') →
  vips_tracked_mem_highwater st <= vips_tracked_mem_highwater st'.
Proof.
  destruct c as [object size r|s]; cbn [perform].
  - unfold bind.
    destruct (vips_tracked_malloc object size r st) as [[p st1]| |] eqn:E;
      [|discriminate..].
    intros [= _ <-].
    apply vips_tracked_malloc_done in E
      as [(_ & _ & _ & ->)|(_ & _ & _ & _ & ->)].
    + reflexivity.
    + cbn [allocated vips_tracked_mem_highwater].
      match goal with |- context [?a <? ?b] => destruct (Z.ltb_spec a b) end;
        lia.
  - intros E. apply vips_tracked_free_done in E as (size & _ & _ & ->).
    reflexivity.
Qed.

Lemma run_highwater cs :
  ∀ st u st',
    run cs st = Done (u, st') →
    vips_tracked_mem_highwater st <= vips_tracked_mem_highwater st'.
Proof.
  induction cs as [|c cs IH]; intros st u st'.
  - rewrite run_nil. intros [= _ <-]. reflexivity.
  - rewrite run_cons.
    destruct (perform c st) as [[u1 st1]| |] eqn:E; [|discriminate..].
    intros Hrun. apply perform_highwater in E. apply IH in Hrun. lia.
Qed.

Lemma run_app cs1 cs2 st u st' :
  run (cs1 ++ cs2) st = Done (u, st') →
  ∃ st1, run cs1 st = Done (tt, st1) ∧ run cs2 st1 = Done (u, st').
Proof.
  revert st. induction cs1 as [|c cs1 IH]; intros st.
  - cbn [app]. intros H. exists st. now rewrite run_nil.
  - cbn [app]. rewrite !run_cons.
    destruct (perform c st) as [[u1 st1]| |]; [|discriminate..].
    apply IH.
Qed.

Lemma calls_ok_app cs1 cs2 st u st1 :
  calls_ok (cs1 ++ cs2) st = true →
  run cs1 st = Done (u, st1) →
  calls_ok cs1 st = true ∧ calls_ok cs2 st1 = true.
Proof.
  revert st. induction cs1 as [|c cs1 IH]; intros st.
  - cbn [app]. rewrite run_nil. intros H [= _ <-]. now split.
  - cbn [app calls_ok]. rewrite run_cons, !andb_true_iff.
    destruct (perform c st) as [[u1 st2]| |]; [|discriminate..].
    intros [Hc Hrest] Hrun. destruct (IH _ Hrest Hrun). auto.
Qed.

(** C3: over every sequence of calls the high-water mark never goes
    down, at any point of the sequence; and over every sequence of
    allocations and frees (the accounting starts consistent, every free
    is given the pointer of a live block, and the byte allocator keeps
    its blocks apart) the high-water mark is at least current bytes at
    every point of the sequence. *)
Theorem highwater_monotone_and_above cs1 cs2 st u st' :
  run (cs1 ++ cs2) st = Done (u, st') →
  ∃ st1,
    run cs1 st = Done (tt, st1)
    ∧ run cs2 st1 = Done (u, st')
    ∧ vips_tracked_mem_highwater st <= vips_tracked_mem_highwater st1
    ∧ vips_tracked_mem_highwater st1 <= vips_tracked_mem_highwater st'
    ∧ (consistent st → calls_ok (cs1 ++ cs2) st = true →
       vips_tracked_mem st1 <= vips_tracked_mem_highwater st1
       ∧ vips_tracked_mem st' <= vips_tracked_mem_highwater st').
Proof.
  intros Hrun. destruct (run_app _ _ _ _ _ Hrun) as (st1 & H1 & H2).
  exists st1.
  split; [exact H1|]. split; [exact H2|].
  split; [exact (run_highwater _ _ _ _ H1)|].
  split; [exact (run_highwater _ _ _ _ H2)|].
  intros Hc Hok.
  destruct (calls_ok_app _ _ _ _ _ Hok H1) as [Hok1 _].
  split; apply highwater_above.
  - exact (run_consistent _ _ _ _ Hc Hok1 H1).
  - exact (run_consistent _ _ _ _ Hc Hok Hrun).
Qed.

(** ** Interleavings keep the threads sound *)

Lemma lookup_insert_thread (ths : list thread) i j (th new th' : thread) :
  ths !! i = Some th → <[i := new]> ths !! j = Some th' →
  (j = i ∧ th' = new) ∨ (j ≠ i ∧ ths !! j = Some th').
Proof.
  intros Hi Hj. destruct (decide (j = i)) as [->|Hne].
  - left. split; [reflexivity|].
    rewrite list_lookup_insert_eq in Hj by (eapply lookup_lt_Some; eauto).
    congruence.
  - right. split; [assumption|].
    now rewrite list_lookup_insert_ne in Hj by auto.
Qed.

Lemma total_of_cons f th ths :
  total_of f (th :: ths) = f (pc th) + total_of f ths.
Proof. reflexivity. Qed.

Lemma total_of_ext f g (ths : list thread) :
  (∀ j th, ths !! j = Some th → g (pc th) = f (pc th)) →
  total_of g ths = total_of f ths.
Proof.
  induction ths as [|a ths IH]; intros H; [reflexivity|].
  rewrite !total_of_cons, (H 0%nat a) by reflexivity.
  rewrite IH; [reflexivity|]. intros j th Hj. apply (H (S j)). exact Hj.
Qed.

Lemma total_of_insert f g (ths : list thread) :
  ∀ i th new,
    ths !! i = Some th →
    (∀ j th', j ≠ i → ths !! j = Some th' → g (pc th') = f (pc th')) →
    total_of g (<[i := new]> ths) = total_of f ths - f (pc th) + g (pc new).
Proof.
  induction ths as [|a ths IH]; intros i th new Hi Hothers; [discriminate|].
  destruct i as [|i].
  - injection Hi as ->.
    change (<[0%nat := new]> (th :: ths)) with (new :: ths).
    rewrite !total_of_cons.
    rewrite (total_of_ext f g ths); [lia|].
    intros j th' Hj. apply (Hothers (S j)); [lia | exact Hj].
  - change (<[S i := new]> (a :: ths)) with (a :: <[i := new]> ths).
    rewrite !total_of_cons.
    rewrite (IH i th new Hi).
    + rewrite (Hothers 0%nat a); [lia | lia | reflexivity].
    + intros j th' Hne Hj. apply (Hothers (S j)); [lia | exact Hj].
Qed.

Lemma total_of_finished f (ths : list thread) :
  f Idle = 0 → Forall finished ths → total_of f ths = 0.
Proof.
  intros Hf. induction 1 as [|th ths [Hpc _] _ IH]; [reflexivity|].
  rewrite total_of_cons, Hpc, Hf, IH. reflexivity.
Qed.

Lemma locals_ok_outside st k : critical k = false → locals_ok st k.
Proof. destruct k; cbn; intros; (discriminate || exact I). Qed.

Lemma locals_ok_same st st' k :
  memory st' = memory st →
  vips_tracked_mem st' = vips_tracked_mem st →
  vips_tracked_allocs st' = vips_tracked_allocs st →
  locals_ok st k → locals_ok st' k.
Proof. intros Hm Hb Ha. destruct k; cbn; rewrite ?Hm, ?Hb, ?Ha; auto. Qed.

Lemma divides_wrap x : (size_t_wrap x - x) mod 2 ^ w = 0.
Proof.
  pose proof size_t_modulus_pos. unfold size_t_wrap.
  rewrite Zminus_mod_idemp_l, Z.sub_diag. apply Z.mod_0_l. lia.
Qed.

Lemma mod_zero_add a b :
  a mod 2 ^ w = 0 → b mod 2 ^ w = 0 → (a + b) mod 2 ^ w = 0.
Proof.
  pose proof size_t_modulus_pos.
  intros Ha Hb. rewrite Z.add_mod, Ha, Hb by lia. apply Z.mod_0_l. lia.
Qed.

(** One step of thread [i], from [th] to where [k'] with the shared state
    [st'] and the mutex [mx'], keeps the threads sound when the step
    itself does what its place allows. *)
Lemma step_sound c i th k' td' st' mx' :
  sound c →
  threads c !! i = Some th →
  (critical k' = true → mx' = Some i) →
  (mx' = mutex c ∨ mutex c = None ∨ critical (pc th) = true) →
  locals_ok st' k' →
  (critical (pc th) = true
   ∨ (memory st' = memory (shared c)
      ∧ vips_tracked_mem st' = vips_tracked_mem (shared c)
      ∧ vips_tracked_allocs st' = vips_tracked_allocs (shared c))) →
  (∀ b, held k' = Some b → ∃ n, In (b, n) (heap st')) →
  (∀ b n, In (b, n) (heap (shared c)) → held (pc th) ≠ Some b →
          In (b, n) (heap st')) →
  (held k' = None ∨ held k' = held (pc th)
   ∨ ∃ r, held k' = Some r ∧ ∀ n, ¬ In (r, n) (heap (shared c))) →
  Forall (within 1 (2 ^ w)) (heap st') →
  0 <= vips_tracked_mem st' < 2 ^ w →
  (memory st' = memory (shared c)
   ∨ ∃ buf v, held (pc th) = Some buf
              ∧ memory st' = <[buf := v]> (memory (shared c))) →
  (vips_tracked_mem st' - bytes_in (memory st') k'
   - (vips_tracked_mem (shared c) - bytes_in (memory (shared c)) (pc th)))
    mod 2 ^ w = 0 →
  vips_tracked_allocs st' - count_in k'
  = vips_tracked_allocs (shared c) - count_in (pc th) →
  sound (World st' mx' (<[i := Thread k' td']> (threads c))).
Proof.
  intros [Hone Hloc Hlive Hapart Hin Hrng Hbal Hcnt] Hi
         Hmx' Hmx Hk' Hsame Hheld' Hheap Hfresh Hin' Hrng' Hmem Hbytes Hcount.
  constructor; cbn [shared mutex threads].
  - intros j th' Hj Hcr.
    destruct (lookup_insert_thread _ _ _ _ _ _ Hi Hj) as [[-> ->]|[Hne Hj']].
    + now apply Hmx'.
    + pose proof (Hone _ _ Hj' Hcr) as Hmj.
      destruct Hmx as [->|[Hnone|Hcri]]; [assumption|congruence|].
      pose proof (Hone _ _ Hi Hcri). congruence.
  - intros j th' Hj.
    destruct (lookup_insert_thread _ _ _ _ _ _ Hi Hj) as [[-> ->]|[Hne Hj']].
    + exact Hk'.
    + destruct Hsame as [Hcri|(Hm & Hb & Ha)].
      * apply locals_ok_outside.
        destruct (critical (pc th')) eqn:Hcr; [|reflexivity].
        pose proof (Hone _ _ Hj' Hcr). pose proof (Hone _ _ Hi Hcri).
        congruence.
      * apply (locals_ok_same (shared c)); auto. exact (Hloc _ _ Hj').
  - intros j th' b Hj Hb.
    destruct (lookup_insert_thread _ _ _ _ _ _ Hi Hj) as [[-> ->]|[Hne Hj']].
    + now apply Hheld'.
    + destruct (Hlive _ _ _ Hj' Hb) as [n Hn]. exists n.
      apply Hheap; [assumption|]. intros Hb'.
      apply Hne. exact (Hapart _ _ _ _ _ Hj' Hi Hb Hb').
  - intros j1 j2 th1 th2 b Hj1 Hj2 Hb1 Hb2.
    destruct (lookup_insert_thread _ _ _ _ _ _ Hi Hj1)
      as [[-> ->]|[Hne1 Hj1']];
      destruct (lookup_insert_thread _ _ _ _ _ _ Hi Hj2)
        as [[-> ->]|[Hne2 Hj2']]; auto.
    + cbn [pc] in Hb1.
      destruct Hfresh as [Hnone|[Hsame'|(r & Hr & Hnew)]].
      * congruence.
      * rewrite Hsame' in Hb1. exact (Hapart _ _ _ _ _ Hi Hj2' Hb1 Hb2).
      * destruct (Hlive _ _ _ Hj2' Hb2) as [n Hn].
        assert (r = b) by congruence. subst r. destruct (Hnew _ Hn).
    + cbn [pc] in Hb2.
      destruct Hfresh as [Hnone|[Hsame'|(r & Hr & Hnew)]].
      * congruence.
      * rewrite Hsame' in Hb2. exact (Hapart _ _ _ _ _ Hj1' Hi Hb1 Hb2).
      * destruct (Hlive _ _ _ Hj1' Hb1) as [n Hn].
        assert (r = b) by congruence. subst r. destruct (Hnew _ Hn).
    + exact (Hapart _ _ _ _ _ Hj1' Hj2' Hb1 Hb2).
  - exact Hin'.
  - exact Hrng'.
  - rewrite (total_of_insert (bytes_in (memory (shared c)))
               (bytes_in (memory st')) _ _ _ _ Hi).
    + cbn [pc].
      replace (vips_tracked_mem st'
               - (total_of (bytes_in (memory (shared c))) (threads c)
                  - bytes_in (memory (shared c)) (pc th)
                  + bytes_in (memory st') k'))
        with ((vips_tracked_mem (shared c)
               - total_of (bytes_in (memory (shared c))) (threads c))
              + (vips_tracked_mem st' - bytes_in (memory st') k'
                 - (vips_tracked_mem (shared c)
                    - bytes_in (memory (shared c)) (pc th)))) by lia.
      now apply mod_zero_add.
    + intros j th' Hne Hj'.
      destruct Hmem as [->|(buf & v & Hbuf & ->)]; [reflexivity|].
      destruct (pc th') eqn:Hpc; try reflexivity.
      cbn [bytes_in]. rewrite lookup_insert_ne; [reflexivity|].
      intros ->. apply Hne.
      apply (Hapart _ _ _ _ (s - 16) Hj' Hi); [now rewrite Hpc | assumption].
  - rewrite (total_of_insert count_in count_in _ _ _ _ Hi) by reflexivity.
    cbn [pc]. lia.
Qed.

Ltac zero_mod :=
  match goal with
  | |- ?x mod _ = 0 =>
      replace x with 0 by lia; apply Z.mod_0_l; pose proof size_t_modulus_pos; lia
  end.

Ltac unf :=
  cbn [pc critical held bytes_in count_in locals_ok shared mutex threads
       set_mem set_allocs set_highwater set_memory set_heap set_log
       vips_tracked_mem vips_tracked_allocs vips_tracked_mem_highwater
       heap memory log handlers] in *.

Ltac side :=
  cbn [pc critical held bytes_in count_in locals_ok shared mutex threads
       set_mem set_allocs set_highwater set_memory set_heap set_log
       vips_tracked_mem vips_tracked_allocs vips_tracked_mem_highwater
       heap memory log handlers] in *;
  first
    [ exact I | reflexivity | assumption | discriminate | lia
    | zero_mod
    | (intros; congruence)
    | (left; reflexivity)
    | (right; left; reflexivity)
    | (right; left; assumption)
    | (right; right; reflexivity)
    | (left; f_equal; lia)
    | (right; left; f_equal; lia)
    | (right; repeat split; reflexivity)
    | (intros; assumption) ].

Lemma world_step_sound i r c c' :
  sound c → world_step i r c = Some c' → sound c'.
Proof.
  intros Hs. unfold world_step.
  destruct (threads c !! i) as [[k td]|] eqn:Hi; [|discriminate].
  pose proof (one_in_section _ Hs _ _ Hi) as Hcr.
  pose proof (locals_agree _ Hs _ _ Hi) as Hloc.
  pose proof (λ b, held_live _ Hs _ _ b Hi) as Hlive.
  pose proof (blocks_inside _ Hs) as Hin.
  pose proof (mem_size_t _ Hs) as Hrng.
  cbn [pc todo] in *.
  destruct k; cbn [mutex_effect micro_step andb critical held locals_ok] in *.
  - (* Idle: the call of the byte allocator *)
    destruct td as [|size rest]; [discriminate|]. cbn [head tail].
    destruct (grant_ok (heap (shared c)) (size_t_wrap (size + 16)) r)
      eqn:Hg; [|discriminate].
    cbn [andb]. unfold bind, g_try_malloc.
    destruct (Z.eqb_spec r NULL) as [->|Hr].
    + cbn. destruct DEBUG; [discriminate|]. cbn. intros [= <-].
      apply (step_sound c i _ _ _ _ _ Hs Hi); try side; unf.
    + cbn. destruct (Z.eqb_spec r NULL); [contradiction|]. cbn.
      intros [= <-].
      apply grant_ok_true in Hg as [?|(_ & Hn & Hr0 & Hhi & Hfresh)];
        [contradiction|].
      apply (step_sound c i _ _ _ _ _ Hs Hi); try side; unf.
      * intros b [= <-]. eexists. left. reflexivity.
      * intros b n' Hb _. now right.
      * right. right. exists r. split; [reflexivity|]. intros n' Hn'.
        pose proof (apart_other_base _ _ _ Hn Hin Hfresh) as Hbases.
        rewrite Forall_forall in Hbases.
        apply list_elem_of_In in Hn'. now apply (Hbases _ Hn').
      * constructor; [|assumption]. unfold within. cbn. lia.
  - (* M_lock *)
    destruct (mutex c) eqn:Hmx; [discriminate|]. cbn. intros [= <-].
    apply (step_sound c i _ _ _ _ _ Hs Hi); try side; unf.
  - (* M_header *)
    unfold bind, store_size_t, ret.
    destruct (block_size buf (shared c)) as [n|] eqn:Hblk; [|discriminate].
    destruct (sizeof_size_t <=? n); [|discriminate].
    intros [= <-].
    apply (step_sound c i _ _ _ _ _ Hs Hi); try side; unf.
    + replace (buf + 16 - 16) with buf by lia. apply lookup_insert_eq.
    + intros b [= <-]. replace (buf + 16 - 16) with buf by lia.
      now apply Hlive.
    + right. exists buf, size. split; reflexivity.
  - (* M_mem_load *)
    cbn. intros [= <-].
    apply (step_sound c i _ _ _ _ _ Hs Hi); try side; unf.
    split; [assumption | reflexivity].
  - (* M_mem_store *)
    cbn. intros [= <-]. destruct Hloc as [Hhdr ->].
    apply (step_sound c i _ _ _ _ _ Hs Hi); try side; unf.
    + apply size_t_wrap_range.
    + match goal with
      | |- (size_t_wrap ?x - _ - _) mod _ = 0 =>
          replace (size_t_wrap x - size - (vips_tracked_mem (shared c) - 0))
            with (size_t_wrap x - x) by lia
      end.
      apply divides_wrap.
  - (* M_highwater *)
    unfold bind, get, when, modify, ret.
    destruct (vips_tracked_mem_highwater (shared c)
              <? vips_tracked_mem (shared c));
      intros [= <-];
      (apply (step_sound c i _ _ _ _ _ Hs Hi); try side; unf).
  - (* M_allocs_load *)
    cbn. intros [= <-].
    apply (step_sound c i _ _ _ _ _ Hs Hi); try side; unf.
    split; [assumption | reflexivity].
  - (* M_allocs_store *)
    unfold bind, int_op, modify, ret, undefined.
    destruct ((INT_MIN <=? tmp + 1) && (tmp + 1 <=? INT_MAX));
      [|discriminate].
    intros [= <-]. destruct Hloc as [Hhdr ->].
    apply (step_sound c i _ _ _ _ _ Hs Hi); try side; unf.
  - (* M_unlock *)
    cbn. intros [= <-].
    apply (step_sound c i _ _ _ _ _ Hs Hi); try side; unf.
    rewrite Hloc. cbv [default from_option id]. zero_mod.
  - (* F_header *)
    unfold bind, load_size_t, ret.
    destruct (memory (shared c) !! (s - 16)) as [v|] eqn:Hld; [|discriminate].
    intros [= <-].
    apply (step_sound c i _ _ _ _ _ Hs Hi); try side; unf.
    rewrite Hld. cbv [default from_option id]. zero_mod.
  - (* F_lock *)
    destruct (mutex c) eqn:Hmx; [discriminate|]. cbn. intros [= <-].
    apply (step_sound c i _ _ _ _ _ Hs Hi); try side; unf.
  - (* F_allocs_check *)
    unfold bind, get, when, vips_warn, modify, ret.
    destruct (vips_tracked_allocs (shared c) <=? 0);
      intros [= <-];
      (apply (step_sound c i _ _ _ _ _ Hs Hi); try side; unf).
  - (* F_mem_load *)
    cbn. intros [= <-].
    apply (step_sound c i _ _ _ _ _ Hs Hi); try side; unf.
  - (* F_mem_store *)
    cbn. intros [= <-]. subst tmp.
    apply (step_sound c i _ _ _ _ _ Hs Hi); try side; unf.
    + apply size_t_wrap_range.
    + match goal with
      | |- (size_t_wrap ?x - _ - _) mod _ = 0 =>
          replace (size_t_wrap x - 0 - (vips_tracked_mem (shared c) - size))
            with (size_t_wrap x - x) by lia
      end.
      apply divides_wrap.
  - (* F_mem_check *)
    unfold bind, get, when, vips_warn, modify, ret.
    destruct (vips_tracked_mem (shared c) <? 0);
      intros [= <-];
      (apply (step_sound c i _ _ _ _ _ Hs Hi); try side; unf).
  - (* F_allocs_load *)
    cbn. intros [= <-].
    apply (step_sound c i _ _ _ _ _ Hs Hi); try side; unf.
  - (* F_allocs_store *)
    unfold bind, int_op, modify, ret, undefined.
    destruct ((INT_MIN <=? tmp - 1) && (tmp - 1 <=? INT_MAX));
      [|discriminate].
    intros [= <-]. subst tmp.
    apply (step_sound c i _ _ _ _ _ Hs Hi); try side; unf.
  - (* F_unlock *)
    cbn. intros [= <-].
    apply (step_sound c i _ _ _ _ _ Hs Hi); try side; unf.
  - (* F_release *)
    cbn. intros [= <-].
    apply (step_sound c i _ _ _ _ _ Hs Hi); try side; unf.
    + intros b n Hb Hne. apply filter_In. split; [assumption|].
      cbn [fst]. destruct (Z.eqb_spec b s); [congruence | reflexivity].
    + now apply Forall_list_filter.
Qed.

Lemma run_schedule_sound sched :
  ∀ c c', sound c → run_schedule sched c = Some c' → sound c'.
Proof.
  induction sched as [|[i r] sched IH]; intros c c' Hs.
  - intros [= <-]. exact Hs.
  - cbn [run_schedule].
    destruct (world_step i r c) as [c1|] eqn:E; [|discriminate].
    apply IH. eapply world_step_sound; eauto.
Qed.

Lemma total_of_idle f (progs : list (list Z)) :
  f Idle = 0 → total_of f (map (Thread Idle) progs) = 0.
Proof.
  intros Hf. induction progs as [|td progs IH]; [reflexivity|].
  cbn [map]. rewrite total_of_cons, IH. cbn [pc]. lia.
Qed.

Lemma start_sound progs : sound (start progs).
Proof.
  pose proof size_t_modulus_pos.
  assert (∀ i th, map (Thread Idle) progs !! i = Some th → pc th = Idle)
    as Hidle.
  { intros i th Hi. rewrite list_lookup_fmap in Hi.
    destruct (progs !! i); [|discriminate]. now injection Hi as <-. }
  constructor; cbn [start shared mutex threads initial heap memory
                    vips_tracked_mem vips_tracked_allocs].
  - intros i th Hi. now rewrite (Hidle _ _ Hi).
  - intros i th Hi. now rewrite (Hidle _ _ Hi).
  - intros i th b Hi. now rewrite (Hidle _ _ Hi).
  - intros i j th th' b Hi _. now rewrite (Hidle _ _ Hi).
  - constructor.
  - lia.
  - rewrite total_of_idle by reflexivity. apply Z.mod_0_l. lia.
  - now rewrite total_of_idle.
Qed.

Lemma world_step_threads i r c c' :
  world_step i r c = Some c' → length (threads c') = length (threads c).
Proof.
  unfold world_step.
  destruct (threads c !! i) as [th|]; [|discriminate].
  match goal with |- (if ?b then _ else _) = _ → _ => destruct b end;
    [|discriminate].
  destruct (micro_step (pc th) (head (todo th)) r (shared c))
    as [[k st]| |]; [|discriminate..].
  intros [= <-]. cbn [threads]. apply length_insert.
Qed.

Lemma run_schedule_threads sched :
  ∀ c c', run_schedule sched c = Some c' →
          length (threads c') = length (threads c).
Proof.
  induction sched as [|[i r] sched IH]; intros c c'.
  - now intros [= <-].
  - cbn [run_schedule].
    destruct (world_step i r c) as [c1|] eqn:E; [|discriminate].
    intros Hrun. rewrite (IH _ _ Hrun). now apply world_step_threads in E.
Qed.

(** X8: Two threads are never both between g_mutex_lock() and
    g_mutex_unlock(). *)
Lemma one_thread_in_section progs sched c i j th th' :
  run_schedule sched (start progs) = Some c →
  threads c !! i = Some th → threads c !! j = Some th' →
  critical (pc th) = true → critical (pc th') = true → i = j.
Proof.
  intros Hrun Hi Hj Hci Hcj.
  pose proof (run_schedule_sound _ _ _ (start_sound progs) Hrun) as Hs.
  pose proof (one_in_section _ Hs _ _ Hi Hci).
  pose proof (one_in_section _ Hs _ _ Hj Hcj). congruence.
Qed.

(** C9: M threads, thread i allocating and freeing the sizes of
    [progs !! i] one pair after the other, stepping in any order with the
    counters loaded and stored in separate steps under the mutex: once
    every thread has finished, current bytes and the count are 0. *)
Theorem threads_leave_nothing progs sched c :
  run_schedule sched (start progs) = Some c →
  Forall finished (threads c) →
  length (threads c) = length progs
  ∧ vips_tracked_mem (shared c) = 0
  ∧ vips_tracked_allocs (shared c) = 0.
Proof.
  intros Hrun Hfin.
  pose proof (run_schedule_sound _ _ _ (start_sound progs) Hrun) as Hs.
  pose proof (mem_balance _ Hs) as Hbal.
  pose proof (mem_size_t _ Hs) as Hrng.
  pose proof (allocs_balance _ Hs) as Hcnt.
  rewrite total_of_finished in Hbal by auto.
  rewrite total_of_finished in Hcnt by auto.
  rewrite Z.sub_0_r, Z.mod_small in Hbal by lia.
  split; [|split; assumption].
  rewrite (run_schedule_threads _ _ _ Hrun). cbn [start threads].
  apply length_map.
Qed.

(** ** What the counters say after a sequence of calls *)

(** X1: From the initial state, over calls in which the byte allocator keeps
    its blocks apart and every free is given the pointer of a live block:
    current bytes is the sum of the sizes of the live blocks, the count
    is their number, every live block has its size in its header, and
    with no block live both counters are 0. *)
Theorem accounting_matches_live_blocks cs u st :
  calls_ok cs initial = true →
  run cs initial = Done (u, st) →
  vips_tracked_mem st = total_bytes (heap st)
  ∧ vips_tracked_allocs st = Z.of_nat (length (heap st))
  ∧ 0 <= vips_tracked_allocs st
  ∧ Forall (λ blk, memory st !! fst blk = Some (snd blk)) (heap st)
  ∧ (heap st = [] →
     vips_tracked_mem st = 0 ∧ vips_tracked_allocs st = 0).
Proof.
  intros Hok Hrun.
  pose proof (run_consistent _ _ _ _ initial_consistent Hok Hrun)
    as [_ _ Hhdr Hmem Hcnt _ _].
  split; [exact Hmem|]. split; [exact Hcnt|]. split; [lia|].
  split; [exact Hhdr|].
  intros Hnil. rewrite Hmem, Hcnt, Hnil. split; reflexivity.
Qed.

(** ** The high-water mark is the peak of current bytes *)

Lemma peak_cons start x l : peak start (x :: l) = Z.max x (peak start l).
Proof. reflexivity. Qed.

Lemma peak_raise start x l :
  peak (Z.max start x) l = Z.max x (peak start l).
Proof.
  induction l as [|y l IH]; cbn [peak foldr].
  - lia.
  - fold (peak (Z.max start x) l). fold (peak start l). rewrite IH. lia.
Qed.

Lemma perform_peak c st u st' :
  consistent st → call_ok c st = true →
  perform c st = Done (u, st') →
  vips_tracked_mem_highwater st'
  = Z.max (vips_tracked_mem_highwater st) (vips_tracked_mem st').
Proof.
  intros Hc Hok Hp.
  pose proof (perform_consistent _ _ _ _ Hc Hok Hp) as Hc'.
  pose proof (highwater_above _ Hc) as Hab.
  destruct c as [object size r|s]; cbn [perform call_ok] in *.
  - unfold bind in Hp.
    destruct (vips_tracked_malloc object size r st) as [[p st1]| |] eqn:E;
      [|discriminate..].
    injection Hp as _ <-.
    apply vips_tracked_malloc_done in E
      as [(_ & _ & _ & ->)|(_ & _ & _ & _ & ->)].
    + cbn [refused set_log vips_tracked_mem vips_tracked_mem_highwater]. lia.
    + cbn [allocated vips_tracked_mem vips_tracked_mem_highwater].
      match goal with |- context [?a <? ?b] => destruct (Z.ltb_spec a b) end;
        lia.
  - apply vips_tracked_free_done in Hp as (size & Hld & _ & ->).
    apply live_block_found in Hok as [n Hlive].
    rewrite (live_header _ _ _ Hc Hlive) in Hld. injection Hld as <-.
    pose proof (highwater_above _ Hc') as Hab'.
    cbn [freed vips_tracked_mem vips_tracked_mem_highwater] in *. lia.
Qed.

Lemma run_peak cs :
  ∀ st u st',
    consistent st → calls_ok cs st = true →
    run cs st = Done (u, st') →
    vips_tracked_mem_highwater st'
    = peak (vips_tracked_mem_highwater st) (bytes_after cs st).
Proof.
  induction cs as [|c cs IH]; intros st u st' Hc Hok.
  - rewrite run_nil. intros [= _ <-]. reflexivity.
  - rewrite run_cons. cbn [calls_ok bytes_after] in *.
    apply andb_true_iff in Hok as [Hc1 Hrest].
    destruct (perform c st) as [[u1 st1]| |] eqn:E; [|discriminate..].
    intros Hrun.
    rewrite (IH _ _ _ (perform_consistent _ _ _ _ Hc Hc1 E) Hrest Hrun).
    rewrite (perform_peak _ _ _ _ Hc Hc1 E), peak_raise, peak_cons.
    reflexivity.
Qed.

(** X2: vips_tracked_get_mem_highwater() is the largest value current bytes
    has had: from the initial state, over calls that keep to the rules,
    the high-water mark is the largest of the values of current bytes
    after each call. *)
Theorem highwater_is_peak cs u st :
  calls_ok cs initial = true →
  run cs initial = Done (u, st) →
  vips_tracked_mem_highwater st = peak 0 (bytes_after cs initial).
Proof.
  intros Hok Hrun.
  exact (run_peak _ _ _ _ initial_consistent Hok Hrun).
Qed.

(** ** Freeing live blocks *)

Lemma perform_int_range c st u st' :
  int_range (vips_tracked_allocs st) →
  perform c st = Done (u, st') → int_range (vips_tracked_allocs st').
Proof.
  intros Hint. destruct c as [object size r|s]; cbn [perform].
  - unfold bind.
    destruct (vips_tracked_malloc object size r st) as [[p st1]| |] eqn:E;
      [|discriminate..].
    intros [= _ <-].
    apply vips_tracked_malloc_done in E
      as [(_ & _ & _ & ->)|(_ & _ & Hint1 & _ & ->)]; assumption.
  - intros E. apply vips_tracked_free_done in E as (size & _ & Hint1 & ->).
    assumption.
Qed.

Lemma run_int_range cs :
  ∀ st u st',
    int_range (vips_tracked_allocs st) →
    run cs st = Done (u, st') → int_range (vips_tracked_allocs st').
Proof.
  induction cs as [|c cs IH]; intros st u st' Hint.
  - rewrite run_nil. intros [= _ <-]. exact Hint.
  - rewrite run_cons.
    destruct (perform c st) as [[u1 st1]| |] eqn:E; [|discriminate..].
    apply IH. exact (perform_int_range _ _ _ _ Hint E).
Qed.

Lemma initial_int_range : int_range (vips_tracked_allocs initial).
Proof. unfold int_range, INT_MIN, INT_MAX. cbn. lia. Qed.

Lemma free_live s n st :
  consistent st → int_range (vips_tracked_allocs st) →
  In (s - 16, n) (heap st) →
  vips_tracked_free s st = Done (tt, freed n (s - 16) st)
  ∧ consistent (freed n (s - 16) st)
  ∧ vips_tracked_mem (freed n (s - 16) st) = vips_tracked_mem st - n
  ∧ 0 < n
  ∧ log (freed n (s - 16) st) = log st.
Proof.
  intros Hc Hint Hlive.
  pose proof (freed_consistent _ _ _ Hc Hlive) as Hc'.
  pose proof (allocs_is_count _ Hc) as Hcnt.
  assert (1 <= vips_tracked_allocs st) as Hpos.
  { rewrite Hcnt. destruct (heap st); [destruct Hlive | cbn [length]; lia]. }
  assert (0 < n) as Hn.
  { pose proof (blocks_within _ Hc) as Hin. rewrite Forall_forall in Hin.
    apply (Hin (s - 16, n)). now apply list_elem_of_In. }
  rewrite vips_tracked_free_eq, (live_header _ _ _ Hc Hlive).
  assert ((INT_MIN <=? vips_tracked_allocs st - 1)
          && (vips_tracked_allocs st - 1 <=? INT_MAX) = true) as ->.
  { apply int_check_true. unfold int_range, INT_MIN, INT_MAX in *. lia. }
  split; [reflexivity|]. split; [exact Hc'|].
  split; [|split; [exact Hn|]].
  - rewrite (mem_is_sum _ Hc'), (mem_is_sum _ Hc).
    cbn [freed heap].
    now destruct (release_block _ _ _ (blocks_within _ Hc)
                    (blocks_apart _ Hc) Hlive).
  - cbn [freed log].
    destruct (Z.leb_spec (vips_tracked_allocs st) 0); [lia | reflexivity].
Qed.

(** X3: After calls that keep to the rules, freeing the pointer of any block
    that is live is defined, takes exactly the size in its header
    (requested bytes and header) off current bytes and one off the count,
    leaves the high-water mark, reports nothing and leaves the other
    blocks live. *)
Theorem free_live_block cs u st s n :
  calls_ok cs initial = true →
  run cs initial = Done (u, st) →
  In (s - 16, n) (heap st) →
  ∃ st',
    vips_tracked_free s st = Done (tt, st')
    ∧ memory st !! (s - 16) = Some n
    ∧ vips_tracked_mem st' = vips_tracked_mem st - n
    ∧ vips_tracked_allocs st' = vips_tracked_allocs st - 1
    ∧ vips_tracked_mem_highwater st' = vips_tracked_mem_highwater st
    ∧ log st' = log st
    ∧ (∀ m, ¬ In (s - 16, m) (heap st'))
    ∧ (∀ b m, b ≠ s - 16 → In (b, m) (heap st) → In (b, m) (heap st')).
Proof.
  intros Hok Hrun Hlive.
  pose proof (run_consistent _ _ _ _ initial_consistent Hok Hrun) as Hc.
  pose proof (run_int_range _ _ _ _ initial_int_range Hrun) as Hint.
  destruct (free_live _ _ _ Hc Hint Hlive) as (Hf & _ & Hm & _ & Hl).
  exists (freed n (s - 16) st).
  split; [exact Hf|]. split; [exact (live_header _ _ _ Hc Hlive)|].
  split; [exact Hm|]. split; [reflexivity|]. split; [reflexivity|].
  split; [exact Hl|]. split.
  - intros m Hm'. cbn [freed heap] in Hm'.
    apply filter_In in Hm' as [_ Hb]. cbn [fst] in Hb.
    rewrite Z.eqb_refl in Hb. discriminate.
  - intros b m Hne Hb. cbn [freed heap]. apply filter_In.
    split; [exact Hb|]. cbn [fst].
    destruct (Z.eqb_spec b (s - 16)); [contradiction | reflexivity].
Qed.

(** ** Reports of calls that keep to the rules *)

Lemma refused_log total st :
  Forall is_out_of_memory (log st) →
  Forall is_out_of_memory (log (refused total st)).
Proof.
  intros H. cbn [refused set_log log].
  repeat (apply Forall_app; split); auto; repeat constructor.
Qed.

Lemma perform_reports c st u st' :
  consistent st → int_range (vips_tracked_allocs st) →
  call_ok c st = true →
  perform c st = Done (u, st') →
  Forall is_out_of_memory (log st) → Forall is_out_of_memory (log st').
Proof.
  intros Hc Hint Hok Hp Hlog.
  destruct c as [object size r|s]; cbn [perform call_ok] in *.
  - unfold bind in Hp.
    destruct (vips_tracked_malloc object size r st) as [[p st1]| |] eqn:E;
      [|discriminate..].
    injection Hp as _ <-.
    apply vips_tracked_malloc_done in E
      as [(_ & _ & _ & ->)|(_ & _ & _ & _ & ->)].
    + now apply refused_log.
    + exact Hlog.
  - apply live_block_found in Hok as [n Hlive].
    destruct (free_live _ _ _ Hc Hint Hlive) as (Hf & _ & _ & _ & Hl).
    rewrite Hf in Hp. injection Hp as _ <-. now rewrite Hl.
Qed.

(** X4: From the initial state, calls that keep to the rules are reported on
    only by the "out of memory" pair of a refused allocation: neither
    "too many frees" nor "too much free" is ever reported. *)
Theorem proper_calls_report_no_free_warning cs u st :
  calls_ok cs initial = true →
  run cs initial = Done (u, st) →
  Forall is_out_of_memory (log st)
  ∧ (too_many_frees ∉ log st)
  ∧ (too_much_free ∉ log st).
Proof.
  intros Hok Hrun.
  assert (∀ cs st0 u st,
            consistent st0 → int_range (vips_tracked_allocs st0) →
            calls_ok cs st0 = true → run cs st0 = Done (u, st) →
            Forall is_out_of_memory (log st0) →
            Forall is_out_of_memory (log st)) as Hgen.
  { clear Hok Hrun cs u st.
    induction cs as [|c cs IH]; intros st0 u st Hc Hint Hok.
    - rewrite run_nil. now intros [= _ <-].
    - rewrite run_cons. cbn [calls_ok] in Hok.
      apply andb_true_iff in Hok as [Hc1 Hrest].
      destruct (perform c st0) as [[u1 st1]| |] eqn:E; [|discriminate..].
      intros Hrun Hlog.
      apply (IH st1 u st); auto.
      + exact (perform_consistent _ _ _ _ Hc Hc1 E).
      + exact (perform_int_range _ _ _ _ Hint E).
      + exact (perform_reports _ _ _ _ Hc Hint Hc1 E Hlog). }
  assert (Forall is_out_of_memory (log st)) as Hall.
  { apply (Hgen cs initial u st); auto using initial_consistent,
                                    initial_int_range. }
  split; [exact Hall|]. rewrite Forall_forall in Hall.
  split; intros Hin; exact (Hall _ Hin).
Qed.

(** ** Allocations in a row, freed in any order *)

Lemma allocate_all_for_cons object q reqs st :
  allocate_all_for object (q :: reqs) st
  = match vips_tracked_malloc object (fst q) (snd q) st with
    | Done (p, st1) =>
        match allocate_all_for object reqs st1 with
        | Done (ps, st2) => Done (p :: ps, st2)
        | Aborted => Aborted
        | Undefined => Undefined
        end
    | Aborted => Aborted
    | Undefined => Undefined
    end.
Proof. destruct q as [size r]. reflexivity. Qed.

Lemma allocate_all_for_null reqs :
  ∀ st, allocate_all reqs st = allocate_all_for NULL reqs st.
Proof.
  induction reqs as [|q reqs IH]; intros st; [reflexivity|].
  rewrite allocate_all_cons, allocate_all_for_cons.
  destruct (vips_tracked_malloc NULL (fst q) (snd q) st) as [[p st1]| |];
    try reflexivity.
  now rewrite IH.
Qed.

Lemma allocate_all_for_live object reqs :
  ∀ st0 ps st,
    consistent st0 →
    calls_ok (map (malloc_call_for object) reqs) st0 = true →
    Forall (λ q, 0 <= fst q <= SIZE_MAX - 16) reqs →
    allocate_all_for object reqs st0 = Done (ps, st) →
    Forall (λ p, p ≠ NULL) ps →
    NoDup ps
    ∧ (∀ p, p ∈ ps →
            (∃ n, In (p - 16, n) (heap st))
            ∧ ∀ n, ¬ In (p - 16, n) (heap st0))
    ∧ (∀ blk, In blk (heap st0) → In blk (heap st))
    ∧ length (heap st) = (length (heap st0) + length ps)%nat
    ∧ log st = log st0
    ∧ (int_range (vips_tracked_allocs st0) →
       int_range (vips_tracked_allocs st))
    ∧ (vips_tracked_mem_highwater st0 = vips_tracked_mem st0 →
       vips_tracked_mem_highwater st = vips_tracked_mem st)
    ∧ handlers st
      = handlers st0
        ++ (if object =? NULL then [] else map (pair object) ps).
Proof.
  induction reqs as [|q reqs IH]; intros st0 ps st Hc Hok Hsz.
  - intros [= <- <-] _.
    split; [constructor|]. split; [intros p Hp; inversion Hp|].
    split; [auto|]. split; [cbn; lia|].
    split; [reflexivity|]. split; [auto|]. split; [auto|].
    destruct (object =? NULL); cbn [map]; now rewrite app_nil_r.
  - rewrite allocate_all_for_cons.
    cbn [map calls_ok call_ok malloc_call_for perform] in Hok.
    apply andb_true_iff in Hok as [Hg Hrest]. unfold bind in Hrest.
    apply Forall_cons in Hsz as [[Hq0 Hq1] Hsz]. unfold SIZE_MAX in Hq1.
    destruct (vips_tracked_malloc object (fst q) (snd q) st0)
      as [[p st1]| |] eqn:Em; [|discriminate..].
    destruct (allocate_all_for object reqs st1) as [[ps1 st2]| |] eqn:Ea;
      [|discriminate..].
    intros [= <- <-] Hps. apply Forall_cons in Hps as [Hp Hps].
    apply vips_tracked_malloc_done in Em
      as [(_ & _ & -> & _)|(Hr & _ & Hint1 & -> & ->)]; [contradiction|].
    set (r := snd q) in *. set (total := size_t_wrap (fst q + 16)) in *.
    pose proof (allocated_consistent object _ _ _ Hc Hr Hg) as Hc1.
    destruct (IH _ _ _ Hc1 Hrest Hsz Ea Hps)
      as (Hnd & Hlive & Hsub & Hlen & Hlog & Hint & Hhw & Hhs).
    assert (∀ n, ¬ In (r, n) (heap st0)) as Hfresh.
    { apply grant_ok_true in Hg as [?|(_ & Hn & _ & _ & Hap)];
        [contradiction|].
      pose proof (apart_other_base _ _ _ Hn (blocks_within _ Hc) Hap) as Hb.
      rewrite Forall_forall in Hb. intros n Hin.
      apply list_elem_of_In in Hin. now apply (Hb _ Hin). }
    split; [|split; [|split; [|split; [|split; [|split; [|split]]]]]].
    + apply NoDup_cons. split; [|exact Hnd].
      intros Hin. destruct (Hlive _ Hin) as [_ Hnot].
      apply (Hnot total). replace (r + 16 - 16) with r by lia.
      cbn [allocated heap]. now left.
    + intros p Hin. apply elem_of_cons in Hin as [->|Hin].
      * replace (r + 16 - 16) with r by lia. split; [|exact Hfresh].
        exists total. apply Hsub. cbn [allocated heap]. now left.
      * destruct (Hlive _ Hin) as [Hex Hnot]. split; [exact Hex|].
        intros n Hn. apply (Hnot n). cbn [allocated heap]. now right.
    + intros blk Hin. apply Hsub. cbn [allocated heap]. now right.
    + rewrite Hlen. cbn [allocated heap length]. lia.
    + rewrite Hlog. reflexivity.
    + intros _. apply Hint. exact Hint1.
    + intros Hhw0. apply Hhw.
      pose proof (mem_is_sum _ Hc1) as Hm1. pose proof (mem_is_sum _ Hc) as Hm0.
      pose proof (highwater_above _ Hc1) as Hab.
      cbn [allocated heap vips_tracked_mem vips_tracked_mem_highwater] in *.
      rewrite total_bytes_cons in Hm1. cbn [snd] in Hm1.
      pose proof (blocks_within _ Hc1) as Hin1.
      cbn [allocated heap] in Hin1.
      apply Forall_cons in Hin1 as [(Hpos & _) _]. cbn [snd] in Hpos.
      match goal with |- context [?a <? ?b] => destruct (Z.ltb_spec a b) end;
        [reflexivity | lia].
    + rewrite Hhs. cbn [allocated handlers].
      destruct (object =? NULL); [now rewrite !app_nil_r|].
      cbn [map]. now rewrite <- app_assoc.
Qed.

Lemma allocate_all_live reqs :
  ∀ st0 ps st,
    consistent st0 →
    calls_ok (map malloc_call reqs) st0 = true →
    Forall (λ q, 0 <= fst q <= SIZE_MAX - 16) reqs →
    allocate_all reqs st0 = Done (ps, st) →
    Forall (λ p, p ≠ NULL) ps →
    NoDup ps
    ∧ (∀ p, p ∈ ps →
            (∃ n, In (p - 16, n) (heap st))
            ∧ ∀ n, ¬ In (p - 16, n) (heap st0))
    ∧ (∀ blk, In blk (heap st0) → In blk (heap st))
    ∧ length (heap st) = (length (heap st0) + length ps)%nat
    ∧ log st = log st0
    ∧ (int_range (vips_tracked_allocs st0) →
       int_range (vips_tracked_allocs st))
    ∧ (vips_tracked_mem_highwater st0 = vips_tracked_mem st0 →
       vips_tracked_mem_highwater st = vips_tracked_mem st).
Proof.
  intros st0 ps st Hc Hok Hsz Ha Hps.
  rewrite allocate_all_for_null in Ha.
  destruct (allocate_all_for_live NULL reqs _ _ _ Hc Hok Hsz Ha Hps)
    as (H1 & H2 & H3 & H4 & H5 & H6 & H7 & _).
  auto 10.
Qed.


Lemma free_each frees :
  ∀ st,
    consistent st → int_range (vips_tracked_allocs st) →
    NoDup frees →
    (∀ p, p ∈ frees → ∃ n, In (p - 16, n) (heap st)) →
    length frees = length (heap st) →
    ∃ st',
      run (map tracked_free frees) st = Done (tt, st')
      ∧ heap st' = []
      ∧ consistent st'
      ∧ log st' = log st
      ∧ vips_tracked_mem_highwater st' = vips_tracked_mem_highwater st.
Proof.
  induction frees as [|p frees IH]; intros st Hc Hint Hnd Hlive Hlen.
  - exists st. rewrite run_nil.
    split; [reflexivity|]. split; [|auto].
    destruct (heap st); [reflexivity | discriminate].
  - apply NoDup_cons in Hnd as [Hp Hnd].
    destruct (Hlive p) as [n Hn]; [now left|].
    destruct (free_live _ _ _ Hc Hint Hn) as (Hf & Hc' & _ & _ & Hl).
    destruct (release_block _ _ _ (blocks_within _ Hc) (blocks_apart _ Hc) Hn)
      as [_ Hlen'].
    destruct (IH (freed n (p - 16) st)) as (st' & Hrun & Hnil & Hc'' & Hl' & Hh').
    + exact Hc'.
    + pose proof (allocs_is_count _ Hc').
      pose proof (allocs_is_count _ Hc).
      cbn [freed vips_tracked_allocs] in *.
      unfold int_range, INT_MIN, INT_MAX in *. lia.
    + exact Hnd.
    + intros p' Hp'. destruct (Hlive p') as [n' Hn']; [now right|].
      exists n'. cbn [freed heap]. apply filter_In. split; [exact Hn'|].
      cbn [fst]. destruct (Z.eqb_spec (p' - 16) (p - 16)) as [E|];
        [|reflexivity].
      assert (p' = p) by lia. subst p'. contradiction.
    + cbn [freed heap]. cbn [length] in Hlen. lia.
    + exists st'. cbn [map]. rewrite run_cons. cbn [perform]. rewrite Hf.
      split; [exact Hrun|]. split; [exact Hnil|]. split; [exact Hc''|].
      split; [now rewrite Hl', Hl | exact Hh'].
Qed.

(** X5: Allocations in a row of sizes at most SIZE_MAX - 16, all granted, and
    then one free of each pointer in any order: every free is defined,
    nothing is reported, no block is left live, current bytes and the
    count are back at 0, and the high-water mark is the sum of the sizes
    with their headers. *)
Theorem free_all_in_any_order reqs ps st frees :
  Forall (λ q, 0 <= fst q <= SIZE_MAX - 16) reqs →
  calls_ok (map malloc_call reqs) initial = true →
  allocate_all reqs initial = Done (ps, st) →
  Forall (λ p, p ≠ NULL) ps →
  frees ≡ₚ ps →
  ∃ st',
    run (map tracked_free frees) st = Done (tt, st')
    ∧ heap st' = []
    ∧ vips_tracked_mem st' = 0
    ∧ vips_tracked_allocs st' = 0
    ∧ log st' = []
    ∧ vips_tracked_mem_highwater st' = padded_bytes reqs.
Proof.
  intros Hsz Hok Ha Hps Hperm.
  destruct (allocate_all_sums _ _ _ _ initial_consistent Hok Hsz Ha Hps)
    as (Hc & Hm & _).
  destruct (allocate_all_live _ _ _ _ initial_consistent Hok Hsz Ha Hps)
    as (Hnd & Hlive & _ & Hlen & Hlog & Hint & Hhw).
  destruct (free_each frees st) as (st' & Hrun & Hnil & Hc' & Hl & Hh).
  - exact Hc.
  - apply Hint, initial_int_range.
  - now rewrite Hperm.
  - intros p Hp. rewrite Hperm in Hp. now destruct (Hlive _ Hp).
  - rewrite (Permutation_length Hperm), Hlen. reflexivity.
  - exists st'. split; [exact Hrun|]. split; [exact Hnil|].
    rewrite (mem_is_sum _ Hc'), (allocs_is_count _ Hc'), Hnil, Hl, Hlog, Hh.
    rewrite Hhw by reflexivity. rewrite Hm.
    cbn. repeat split; lia.
Qed.

(** ** Where the payload lies *)

(** X6: A granted request of at most SIZE_MAX - 16 bytes: the block has the
    size and 16 bytes more, its first word holds that sum, and the pointer
    returned is 16 bytes into the block, so that the header ends before
    the payload starts, the payload ends where the block ends, and every
    alignment of the block that divides 16 is the alignment of the
    payload. *)
Theorem payload_inside_block object size r st p st' :
  0 <= size <= SIZE_MAX - 16 →
  vips_tracked_malloc object size r st = Done (p, st') →
  p ≠ NULL →
  In (r, size + 16) (heap st')
  ∧ memory st' !! r = Some (size + 16)
  ∧ p = r + 16
  ∧ r + sizeof_size_t <= p
  ∧ p + size = r + (size + 16)
  ∧ ∀ a, (a | 16) → (a | r) → (a | p).
Proof.
  intros [Hs0 Hs1] Hm Hp. unfold SIZE_MAX in Hs1.
  apply vips_tracked_malloc_done in Hm
    as [(_ & _ & -> & _)|(Hr & _ & _ & -> & ->)]; [contradiction|].
  rewrite (size_t_wrap_small (size + 16)) by lia.
  pose proof sizeof_size_t_le.
  split; [cbn [allocated heap]; now left|].
  split; [apply lookup_insert_eq|].
  split; [reflexivity|]. split; [lia|]. split; [lia|].
  intros a H16 Har. now apply Z.divide_add_r.
Qed.

(** ** More of what holds of the threads *)

Lemma total_of_bounds f (ths : list thread) :
  (∀ k, 0 <= f k <= 1) →
  0 <= total_of f ths <= Z.of_nat (length ths).
Proof.
  intros Hf. induction ths as [|th ths IH]; [cbn; lia|].
  rewrite total_of_cons. cbn [length]. pose proof (Hf (pc th)). lia.
Qed.

Lemma total_of_member f (ths : list thread) :
  (∀ k, 0 <= f k <= 1) →
  ∀ i th, ths !! i = Some th →
          f (pc th) <= total_of f ths
          ∧ total_of f ths <= Z.of_nat (length ths) - 1 + f (pc th).
Proof.
  intros Hf. induction ths as [|a ths IH]; intros i th Hi; [discriminate|].
  rewrite total_of_cons. cbn [length].
  pose proof (total_of_bounds f ths Hf). pose proof (Hf (pc a)).
  destruct i as [|i].
  - injection Hi as ->. lia.
  - destruct (IH i th Hi). lia.
Qed.

Lemma count_in_bounds k : 0 <= count_in k <= 1.
Proof. destruct k; cbn; lia. Qed.

(** X9: Whatever the order of the steps, at every step the count is at least
    0 and at most the number of threads, and current bytes is a size_t
    value. *)
Theorem count_within_threads progs sched c :
  run_schedule sched (start progs) = Some c →
  0 <= vips_tracked_allocs (shared c) <= Z.of_nat (length progs)
  ∧ 0 <= vips_tracked_mem (shared c) < 2 ^ w.
Proof.
  intros Hrun.
  pose proof (run_schedule_sound _ _ _ (start_sound progs) Hrun) as Hs.
  pose proof (run_schedule_threads _ _ _ Hrun) as Hlen.
  cbn [start threads] in Hlen. rewrite length_map in Hlen.
  rewrite (allocs_balance _ Hs), <- Hlen.
  split; [apply total_of_bounds, count_in_bounds | apply (mem_size_t _ Hs)].
Qed.

Lemma world_step_reports i r c c' :
  sound c → world_step i r c = Some c' →
  Forall is_out_of_memory (log (shared c)) →
  Forall is_out_of_memory (log (shared c')).
Proof.
  intros Hs. unfold world_step.
  destruct (threads c !! i) as [[k td]|] eqn:Hi; [|discriminate].
  pose proof (total_of_member count_in _ count_in_bounds _ _ Hi) as [Hcnt _].
  rewrite <- (allocs_balance _ Hs) in Hcnt.
  pose proof (mem_size_t _ Hs) as Hrng.
  cbn [pc todo] in *.
  match goal with |- (if ?b then _ else _) = _ → _ => destruct b end;
    [|discriminate].
  destruct k; cbn [micro_step count_in] in *.
  - destruct td as [|size rest]; [discriminate|]. cbn [head].
    unfold bind, g_try_malloc.
    destruct (Z.eqb_spec r NULL) as [->|Hr]; cbn.
    + destruct DEBUG; [discriminate|]. cbn. intros [= <-] Hlog.
      cbn [shared log set_log].
      repeat (apply Forall_app; split); auto; repeat constructor.
    + destruct (Z.eqb_spec r NULL); [contradiction|]. cbn.
      now intros [= <-].
  - cbn. now intros [= <-].
  - unfold bind, store_size_t, ret.
    destruct (block_size buf (shared c)); [|discriminate].
    destruct (sizeof_size_t <=? z); [|discriminate]. now intros [= <-].
  - cbn. now intros [= <-].
  - cbn. now intros [= <-].
  - unfold bind, get, when, modify, ret.
    destruct (vips_tracked_mem_highwater (shared c)
              <? vips_tracked_mem (shared c)); now intros [= <-].
  - cbn. now intros [= <-].
  - unfold bind, int_op, modify, ret, undefined.
    destruct ((INT_MIN <=? tmp + 1) && (tmp + 1 <=? INT_MAX));
      [|discriminate].
    now intros [= <-].
  - cbn. now intros [= <-].
  - unfold bind, load_size_t, ret.
    destruct (memory (shared c) !! (s - 16)); [|discriminate].
    now intros [= <-].
  - cbn. now intros [= <-].
  - unfold bind, get, when, vips_warn, modify, ret.
    destruct (Z.leb_spec (vips_tracked_allocs (shared c)) 0); [lia|].
    now intros [= <-].
  - cbn. now intros [= <-].
  - cbn. now intros [= <-].
  - unfold bind, get, when, vips_warn, modify, ret.
    destruct (Z.ltb_spec (vips_tracked_mem (shared c)) 0); [lia|].
    now intros [= <-].
  - cbn. now intros [= <-].
  - unfold bind, int_op, modify, ret, undefined.
    destruct ((INT_MIN <=? tmp - 1) && (tmp - 1 <=? INT_MAX));
      [|discriminate].
    now intros [= <-].
  - cbn. now intros [= <-].
  - cbn. now intros [= <-].
Qed.

(** X10: Whatever the order of the steps, threads that free what they
    allocated are never reported on by "too many frees" or "too much
    free": all that is ever reported is the "out of memory" pair of a
    refused allocation. *)
Theorem threads_report_no_free_warning progs sched c :
  run_schedule sched (start progs) = Some c →
  Forall is_out_of_memory (log (shared c))
  ∧ (too_many_frees ∉ log (shared c))
  ∧ (too_much_free ∉ log (shared c)).
Proof.
  intros Hrun.
  assert (∀ sched c0 c,
            sound c0 → run_schedule sched c0 = Some c →
            Forall is_out_of_memory (log (shared c0)) →
            Forall is_out_of_memory (log (shared c))) as Hgen.
  { clear Hrun sched c.
    induction sched as [|[i r] sched IH]; intros c0 c Hs.
    - now intros [= <-].
    - cbn [run_schedule].
      destruct (world_step i r c0) as [c1|] eqn:E; [|discriminate].
      intros Hrun Hlog. apply (IH c1 c); auto.
      + exact (world_step_sound _ _ _ _ Hs E).
      + exact (world_step_reports _ _ _ _ Hs E Hlog). }
  assert (Forall is_out_of_memory (log (shared c))) as Hall.
  { apply (Hgen sched (start progs) c (start_sound progs) Hrun).
    constructor. }
  split; [exact Hall|]. rewrite Forall_forall in Hall.
  split; intros Hin; exact (Hall _ Hin).
Qed.

(** ** Some thread can always step *)

Lemma step_ready n c i th k' td' st' mx' :
  sound c → ready n c →
  threads c !! i = Some th →
  ((mx' = Some i ∧ critical k' = true)
   ∨ mx' = None
   ∨ (mx' = mutex c ∧ critical k' = critical (pc th))) →
  Forall (λ blk, 16 <= snd blk) (heap st') →
  sizes_fit td' →
  (∀ s, k' = F_header s → is_Some (memory st' !! (s - 16))) →
  (∀ a, is_Some (memory (shared c) !! a) → is_Some (memory st' !! a)) →
  ready n (World st' mx' (<[i := Thread k' td']> (threads c))).
Proof.
  intros Hs [Hhold Hblk Htodo Hhdr Hlen] Hi Hmx Hblk' Htd' Hk' Hmem.
  constructor; cbn [shared mutex threads].
  - intros j Hj.
    destruct Hmx as [[-> Hcr]|[->|[-> Hcr]]]; [|discriminate|].
    + injection Hj as <-. exists (Thread k' td'). split; [|exact Hcr].
      apply list_lookup_insert_eq. eapply lookup_lt_Some; eauto.
    + destruct (Hhold _ Hj) as (thj & Hthj & Hcj).
      destruct (decide (j = i)) as [->|Hne].
      * exists (Thread k' td'). split.
        -- apply list_lookup_insert_eq. eapply lookup_lt_Some; eauto.
        -- cbn [pc]. rewrite Hcr. congruence.
      * exists thj. split; [|exact Hcj].
        now rewrite list_lookup_insert_ne by auto.
  - exact Hblk'.
  - intros j th' Hj.
    destruct (lookup_insert_thread _ _ _ _ _ _ Hi Hj) as [[-> ->]|[Hne Hj']].
    + exact Htd'.
    + exact (Htodo _ _ Hj').
  - intros j th' s Hj Hpc.
    destruct (lookup_insert_thread _ _ _ _ _ _ Hi Hj) as [[-> ->]|[Hne Hj']].
    + now apply Hk'.
    + apply Hmem. exact (Hhdr _ _ _ Hj' Hpc).
  - now rewrite length_insert.
Qed.

Ltac ready_side :=
  unf;
  first
    [ assumption | discriminate | reflexivity
    | (intros; assumption)
    | (intros; discriminate)
    | (left; split; reflexivity)
    | (right; left; reflexivity)
    | (right; right; split; reflexivity) ].

Lemma world_step_ready n i r c c' :
  sound c → ready n c → world_step i r c = Some c' → ready n c'.
Proof.
  intros Hs Hr. unfold world_step.
  destruct (threads c !! i) as [[k td]|] eqn:Hi; [|discriminate].
  pose proof (locals_agree _ Hs _ _ Hi) as Hloc.
  pose proof (blocks_hold_header _ _ Hr) as Hblk.
  pose proof (todo_fits _ _ Hr _ _ Hi) as Htd.
  cbn [pc todo] in *.
  destruct k; cbn [mutex_effect micro_step andb locals_ok] in *.
  - destruct td as [|size rest]; [discriminate|]. cbn [head tail].
    destruct (grant_ok (heap (shared c)) (size_t_wrap (size + 16)) r);
      [|discriminate].
    cbn [andb]. unfold bind, g_try_malloc.
    apply Forall_cons in Htd as [[Hs0 Hs1] Hrest]. unfold SIZE_MAX in Hs1.
    destruct (Z.eqb_spec r NULL) as [->|Hne].
    + cbn. destruct DEBUG; [discriminate|]. cbn. intros [= <-].
      apply (step_ready n c i _ _ _ _ _ Hs Hr Hi); try ready_side; unf.
    + cbn. destruct (Z.eqb_spec r NULL); [contradiction|]. cbn.
      intros [= <-].
      apply (step_ready n c i _ _ _ _ _ Hs Hr Hi); try ready_side; unf.
      constructor; [|assumption]. cbn [snd].
      rewrite size_t_wrap_small; lia.
  - destruct (mutex c) eqn:Hmx; [discriminate|]. cbn. intros [= <-].
    apply (step_ready n c i _ _ _ _ _ Hs Hr Hi); try ready_side; unf.
  - unfold bind, store_size_t, ret.
    destruct (block_size buf (shared c)) as [m|]; [|discriminate].
    destruct (sizeof_size_t <=? m); [|discriminate].
    intros [= <-].
    apply (step_ready n c i _ _ _ _ _ Hs Hr Hi); try ready_side; unf.
    intros a [v Hv]. destruct (decide (buf = a)) as [->|Hne].
    + rewrite lookup_insert_eq. eauto.
    + rewrite lookup_insert_ne by auto. eauto.
  - cbn. intros [= <-].
    apply (step_ready n c i _ _ _ _ _ Hs Hr Hi); try ready_side; unf.
  - cbn. intros [= <-].
    apply (step_ready n c i _ _ _ _ _ Hs Hr Hi); try ready_side; unf.
  - unfold bind, get, when, modify, ret.
    destruct (vips_tracked_mem_highwater (shared c)
              <? vips_tracked_mem (shared c));
      intros [= <-];
      (apply (step_ready n c i _ _ _ _ _ Hs Hr Hi); try ready_side; unf).
  - cbn. intros [= <-].
    apply (step_ready n c i _ _ _ _ _ Hs Hr Hi); try ready_side; unf.
  - unfold bind, int_op, modify, ret, undefined.
    destruct ((INT_MIN <=? tmp + 1) && (tmp + 1 <=? INT_MAX));
      [|discriminate].
    intros [= <-].
    apply (step_ready n c i _ _ _ _ _ Hs Hr Hi); try ready_side; unf.
  - cbn. intros [= <-].
    apply (step_ready n c i _ _ _ _ _ Hs Hr Hi); try ready_side; unf.
    intros s [= <-]. rewrite Hloc. eauto.
  - unfold bind, load_size_t, ret.
    destruct (memory (shared c) !! (s - 16)); [|discriminate].
    intros [= <-].
    apply (step_ready n c i _ _ _ _ _ Hs Hr Hi); try ready_side; unf.
  - destruct (mutex c) eqn:Hmx; [discriminate|]. cbn. intros [= <-].
    apply (step_ready n c i _ _ _ _ _ Hs Hr Hi); try ready_side; unf.
  - unfold bind, get, when, vips_warn, modify, ret.
    destruct (vips_tracked_allocs (shared c) <=? 0);
      intros [= <-];
      (apply (step_ready n c i _ _ _ _ _ Hs Hr Hi); try ready_side; unf).
  - cbn. intros [= <-].
    apply (step_ready n c i _ _ _ _ _ Hs Hr Hi); try ready_side; unf.
  - cbn. intros [= <-].
    apply (step_ready n c i _ _ _ _ _ Hs Hr Hi); try ready_side; unf.
  - unfold bind, get, when, vips_warn, modify, ret.
    destruct (vips_tracked_mem (shared c) <? 0);
      intros [= <-];
      (apply (step_ready n c i _ _ _ _ _ Hs Hr Hi); try ready_side; unf).
  - cbn. intros [= <-].
    apply (step_ready n c i _ _ _ _ _ Hs Hr Hi); try ready_side; unf.
  - unfold bind, int_op, modify, ret, undefined.
    destruct ((INT_MIN <=? tmp - 1) && (tmp - 1 <=? INT_MAX));
      [|discriminate].
    intros [= <-].
    apply (step_ready n c i _ _ _ _ _ Hs Hr Hi); try ready_side; unf.
  - cbn. intros [= <-].
    apply (step_ready n c i _ _ _ _ _ Hs Hr Hi); try ready_side; unf.
  - cbn. intros [= <-].
    apply (step_ready n c i _ _ _ _ _ Hs Hr Hi); try ready_side; unf.
    now apply Forall_list_filter.
Qed.

Lemma run_schedule_ready n sched :
  ∀ c c', sound c → ready n c → run_schedule sched c = Some c' →
          sound c' ∧ ready n c'.
Proof.
  induction sched as [|[i r] sched IH]; intros c c' Hs Hr.
  - intros [= <-]. now split.
  - cbn [run_schedule].
    destruct (world_step i r c) as [c1|] eqn:E; [|discriminate].
    apply IH.
    + exact (world_step_sound _ _ _ _ Hs E).
    + exact (world_step_ready _ _ _ _ _ Hs Hr E).
Qed.

Lemma start_ready progs :
  Forall sizes_fit progs → ready (length progs) (start progs).
Proof.
  intros Hfit.
  constructor; cbn [start shared mutex threads initial heap memory].
  - discriminate.
  - constructor.
  - intros i th Hi. apply list_lookup_fmap_Some in Hi as (td & -> & Htd).
    cbn [todo]. rewrite Forall_forall in Hfit. apply (Hfit td).
    eapply list_elem_of_lookup_2; eauto.
  - intros i th s Hi Hpc.
    apply list_lookup_fmap_Some in Hi as (td & -> & _). discriminate.
  - apply length_map.
Qed.

Lemma find_live (hp : list (Z * Z)) b n :
  In (b, n) hp →
  ∃ blk, List.find (λ x, fst x =? b) hp = Some blk ∧ In blk hp.
Proof.
  induction hp as [|x hp IH]; intros Hin; [destruct Hin|].
  cbn [List.find]. destruct (Z.eqb_spec (fst x) b).
  - exists x. split; [reflexivity | now left].
  - destruct Hin as [->|Hin]; [cbn in *; contradiction|].
    destruct (IH Hin) as (blk & Hf & Hb). exists blk. split; [exact Hf|].
    now right.
Qed.

Lemma holder_can_step n c i r th :
  sound c → ready n c → Z.of_nat n <= INT_MAX →
  threads c !! i = Some th → critical (pc th) = true →
  ∃ c', world_step i r c = Some c'.
Proof.
  intros Hs Hr Hn Hi Hcr.
  pose proof (locals_agree _ Hs _ _ Hi) as Hloc.
  pose proof (total_of_member count_in _ count_in_bounds _ _ Hi)
    as [Hlo Hhi].
  rewrite <- (allocs_balance _ Hs), (threads_counted _ _ Hr) in *.
  unfold world_step. rewrite Hi. destruct th as [k td]. cbn [pc todo] in *.
  destruct k; try discriminate;
    cbn [mutex_effect micro_step andb locals_ok count_in] in *.
  - (* M_header *)
    destruct (held_live _ Hs _ _ buf Hi eq_refl) as [m Hm].
    destruct (find_live _ _ _ Hm) as (blk & Hf & Hb).
    pose proof (blocks_hold_header _ _ Hr) as Hblk.
    rewrite Forall_forall in Hblk.
    apply list_elem_of_In in Hb. pose proof (Hblk _ Hb) as H16.
    pose proof sizeof_size_t_le.
    unfold bind, store_size_t, block_size, ret. rewrite Hf. cbn.
    destruct (Z.leb_spec sizeof_size_t (snd blk)); [eauto | lia].
  - cbn. eauto.
  - cbn. eauto.
  - unfold bind, get, when, modify, ret.
    destruct (vips_tracked_mem_highwater (shared c)
              <? vips_tracked_mem (shared c)); eauto.
  - cbn. eauto.
  - (* M_allocs_store *)
    destruct Hloc as [_ ->].
    unfold bind, int_op, modify, ret.
    assert ((INT_MIN <=? vips_tracked_allocs (shared c) + 1)
            && (vips_tracked_allocs (shared c) + 1 <=? INT_MAX) = true)
      as ->.
    { apply int_check_true. unfold int_range, INT_MIN, INT_MAX in *. lia. }
    eauto.
  - cbn. eauto.
  - unfold bind, get, when, vips_warn, modify, ret.
    destruct (vips_tracked_allocs (shared c) <=? 0); eauto.
  - cbn. eauto.
  - cbn. eauto.
  - unfold bind, get, when, vips_warn, modify, ret.
    destruct (vips_tracked_mem (shared c) <? 0); eauto.
  - cbn. eauto.
  - (* F_allocs_store *)
    subst tmp. unfold bind, int_op, modify, ret.
    assert ((INT_MIN <=? vips_tracked_allocs (shared c) - 1)
            && (vips_tracked_allocs (shared c) - 1 <=? INT_MAX) = true)
      as ->.
    { apply int_check_true. unfold int_range, INT_MIN, INT_MAX in *. lia. }
    eauto.
  - cbn. eauto.
Qed.

Lemma waiting_can_step n c j th :
  sound c → ready n c → DEBUG = false →
  mutex c = None →
  threads c !! j = Some th → ¬ finished th →
  ∃ c', world_step j NULL c = Some c'.
Proof.
  intros Hs Hr Hd Hmx Hj Hnot.
  assert (critical (pc th) = false) as Hcr.
  { destruct (critical (pc th)) eqn:E; [|reflexivity].
    pose proof (one_in_section _ Hs _ _ Hj E). congruence. }
  unfold world_step. rewrite Hj, Hmx. destruct th as [k td].
  cbn [pc todo] in *.
  destruct k; try discriminate; cbn [mutex_effect micro_step andb].
  - (* Idle *)
    destruct td as [|size rest]; [destruct Hnot; now split|].
    cbn [head grant_ok]. unfold grant_ok. rewrite Z.eqb_refl. cbn [orb andb].
    unfold bind, g_try_malloc. rewrite Z.eqb_refl. cbn. rewrite Hd. cbn.
    eauto.
  - cbn. eauto.
  - (* F_header *)
    destruct (header_there _ _ Hr _ _ s Hj eq_refl) as [v Hv].
    unfold bind, load_size_t, ret. rewrite Hv. eauto.
  - cbn. eauto.
  - cbn. eauto.
Qed.

(** X11: No deadlock: with DEBUG not defined, sizes that fit with their
    headers and no more threads than an int counts, whatever steps the
    threads have taken, as long as one of them has not finished there is
    a thread that can take its next step (the one that has the mutex, or
    any unfinished one when the mutex is free). *)
Theorem some_thread_can_step progs sched c j th :
  DEBUG = false →
  Forall sizes_fit progs →
  Z.of_nat (length progs) <= INT_MAX →
  run_schedule sched (start progs) = Some c →
  threads c !! j = Some th →
  ¬ finished th →
  ∃ i c', world_step i NULL c = Some c'.
Proof.
  intros Hd Hfit Hn Hrun Hj Hnot.
  destruct (run_schedule_ready _ _ _ _ (start_sound progs)
              (start_ready _ Hfit) Hrun) as [Hs Hr].
  destruct (mutex c) as [i|] eqn:Hmx.
  - destruct (holder_in_section _ _ Hr _ Hmx) as (thi & Hi & Hcr).
    destruct (holder_can_step _ _ _ NULL _ Hs Hr Hn Hi Hcr) as [c' Hc'].
    eauto.
  - destruct (waiting_can_step _ _ _ _ Hs Hr Hd Hmx Hj Hnot) as [c' Hc'].
    eauto.
Qed.

(** ** The threads finish *)

Lemma work_left_cons th ths : work_left (th :: ths) = work th + work_left ths.
Proof. reflexivity. Qed.

Lemma work_left_insert (ths : list thread) :
  ∀ i th new,
    ths !! i = Some th →
    work_left (<[i := new]> ths) = work_left ths - work th + work new.
Proof.
  induction ths as [|a ths IH]; intros i th new Hi; [discriminate|].
  destruct i as [|i].
  - injection Hi as ->.
    change (<[0%nat := new]> (th :: ths)) with (new :: ths).
    rewrite !work_left_cons. lia.
  - change (<[S i := new]> (a :: ths)) with (a :: <[i := new]> ths).
    rewrite !work_left_cons, (IH i th new Hi). lia.
Qed.

Lemma work_nonneg th : 0 <= work th.
Proof. unfold work. destruct (pc th); cbn [steps_left]; lia. Qed.

Lemma work_left_nonneg ths : 0 <= work_left ths.
Proof.
  induction ths as [|th ths IH]; [cbn; lia|].
  rewrite work_left_cons. pose proof (work_nonneg th). lia.
Qed.

Lemma work_left_start progs :
  work_left (map (Thread Idle) progs) = 19 * pairs progs.
Proof.
  induction progs as [|td progs IH]; [reflexivity|].
  cbn [map pairs foldr]. fold (pairs progs).
  rewrite work_left_cons, IH. unfold work. cbn [pc todo steps_left]. lia.
Qed.

Lemma world_step_work i r c c' :
  world_step i r c = Some c' →
  work_left (threads c') + 1 <= work_left (threads c).
Proof.
  unfold world_step.
  destruct (threads c !! i) as [[k td]|] eqn:Hi; [|discriminate].
  cbn [pc todo].
  match goal with |- (if ?b then _ else _) = _ → _ => destruct b end;
    [|discriminate].
  destruct (micro_step k (head td) r (shared c)) as [[k' st']| |] eqn:E;
    [|discriminate..].
  intros [= <-]. cbn [threads].
  rewrite (work_left_insert _ _ _ _ Hi). unfold work. cbn [pc todo].
  destruct k; cbn [micro_step] in E.
  - destruct td as [|size rest]; [discriminate|]. cbn [head tail length] in *.
    unfold bind, g_try_malloc in E.
    destruct (r =? NULL) eqn:Hr; cbn in E.
    + destruct DEBUG; [discriminate|]. injection E as <- _.
      cbn [steps_left]. lia.
    + rewrite Hr in E. injection E as <- _. cbn [steps_left]. lia.
  - injection E as <- _. cbn [steps_left]. lia.
  - unfold bind, store_size_t in E.
    destruct (block_size buf (shared c)); [|discriminate].
    destruct (sizeof_size_t <=? z); [|discriminate].
    injection E as <- _. cbn [steps_left]. lia.
  - injection E as <- _. cbn [steps_left]. lia.
  - injection E as <- _. cbn [steps_left]. lia.
  - unfold bind, get, when, modify, ret in E.
    destruct (vips_tracked_mem_highwater (shared c)
              <? vips_tracked_mem (shared c));
      injection E as <- _; cbn [steps_left]; lia.
  - injection E as <- _. cbn [steps_left]. lia.
  - unfold bind, int_op, undefined in E.
    destruct ((INT_MIN <=? tmp + 1) && (tmp + 1 <=? INT_MAX));
      [|discriminate].
    injection E as <- _. cbn [steps_left]. lia.
  - injection E as <- _. cbn [steps_left]. lia.
  - unfold bind, load_size_t in E.
    destruct (memory (shared c) !! (s - 16)); [|discriminate].
    injection E as <- _. cbn [steps_left]. lia.
  - injection E as <- _. cbn [steps_left]. lia.
  - unfold bind, get, when, vips_warn, modify, ret in E.
    destruct (vips_tracked_allocs (shared c) <=? 0);
      injection E as <- _; cbn [steps_left]; lia.
  - injection E as <- _. cbn [steps_left]. lia.
  - injection E as <- _. cbn [steps_left]. lia.
  - unfold bind, get, when, vips_warn, modify, ret in E.
    destruct (vips_tracked_mem (shared c) <? 0);
      injection E as <- _; cbn [steps_left]; lia.
  - injection E as <- _. cbn [steps_left]. lia.
  - unfold bind, int_op, undefined in E.
    destruct ((INT_MIN <=? tmp - 1) && (tmp - 1 <=? INT_MAX));
      [|discriminate].
    injection E as <- _. cbn [steps_left]. lia.
  - injection E as <- _. cbn [steps_left]. lia.
  - injection E as <- _. cbn [steps_left]. lia.
Qed.

Lemma run_schedule_work sched :
  ∀ c c', run_schedule sched c = Some c' →
          Z.of_nat (length sched) + work_left (threads c')
          <= work_left (threads c).
Proof.
  induction sched as [|[i r] sched IH]; intros c c'.
  - intros [= <-]. cbn [length]. lia.
  - cbn [run_schedule].
    destruct (world_step i r c) as [c1|] eqn:E; [|discriminate].
    intros Hrun. apply IH in Hrun. apply world_step_work in E.
    cbn [length]. lia.
Qed.

(** X12: No thread steps forever: a pair takes a thread at most nineteen
    steps, so the threads take at most nineteen steps for each pair they
    are given, whatever the order; and a run of that many steps leaves
    every thread finished. *)
Theorem threads_finish progs sched c :
  run_schedule sched (start progs) = Some c →
  Z.of_nat (length sched) <= 19 * pairs progs
  ∧ (Z.of_nat (length sched) = 19 * pairs progs →
     Forall finished (threads c)).
Proof.
  intros Hrun. pose proof (run_schedule_work _ _ _ Hrun) as Hw.
  cbn [start threads] in Hw. rewrite work_left_start in Hw.
  pose proof (work_left_nonneg (threads c)) as Hnn.
  split; [lia|]. intros Hfull.
  assert (work_left (threads c) = 0) as H0 by lia.
  clear -H0. induction (threads c) as [|th ths IH]; [constructor|].
  rewrite work_left_cons in H0.
  pose proof (work_nonneg th). pose proof (work_left_nonneg ths).
  constructor; [|apply IH; lia].
  assert (work th = 0) as Hth by lia. unfold work in Hth.
  destruct th as [k td]. cbn [pc todo] in *.
  assert (0 <= steps_left k) by (destruct k; cbn; lia).
  split; cbn [pc todo].
  - destruct k; cbn [steps_left] in *; try lia. reflexivity.
  - destruct td; [reflexivity | cbn [length] in *; lia].
Qed.

(** ** The owner and its blocks *)

Lemma run_callbacks_frees object ps :
  ∀ st, run_callbacks (map (pair object) ps) st
        = run (map tracked_free ps) st.
Proof.
  induction ps as [|p ps IH]; intros st; [reflexivity|].
  cbn [map run_callbacks]. rewrite run_cons. cbn [perform].
  unfold bind, vips_tracked_cb.
  destruct (vips_tracked_free p st) as [[u st1]| |]; try reflexivity.
  apply IH.
Qed.

Lemma consistent_set_handlers hs st :
  consistent st → consistent (set_handlers hs st).
Proof. intros []. constructor; assumption. Qed.

Lemma filter_all_owned object (ps : list Z) :
  List.filter (λ h : Z * Z, fst h =? object) (map (pair object) ps)
  = map (pair object) ps
  ∧ List.filter (λ h : Z * Z, negb (fst h =? object)) (map (pair object) ps)
    = [].
Proof.
  induction ps as [|p ps [IH1 IH2]]; [split; reflexivity|].
  cbn [map List.filter fst]. rewrite Z.eqb_refl. cbn [negb].
  now rewrite IH1, IH2.
Qed.

Lemma allocate_all_for_consistent object reqs :
  ∀ st0 ps st,
    consistent st0 →
    calls_ok (map (malloc_call_for object) reqs) st0 = true →
    allocate_all_for object reqs st0 = Done (ps, st) →
    consistent st.
Proof.
  induction reqs as [|q reqs IH]; intros st0 ps st Hc Hok.
  - now intros [= _ <-].
  - rewrite allocate_all_for_cons.
    cbn [map calls_ok call_ok malloc_call_for perform] in Hok.
    apply andb_true_iff in Hok as [Hg Hrest]. unfold bind in Hrest.
    destruct (vips_tracked_malloc object (fst q) (snd q) st0)
      as [[p st1]| |] eqn:Em; [|discriminate..].
    destruct (allocate_all_for object reqs st1) as [[ps1 st2]| |] eqn:Ea;
      [|discriminate..].
    intros [= _ <-]. apply (IH st1 ps1 st2); auto.
    apply (perform_consistent (malloc_call_for object q) st0 tt st1);
      auto.
    cbn [malloc_call_for perform]. unfold bind. now rewrite Em.
Qed.

Lemma frees_keep_handlers frees :
  ∀ st0 u st1,
    run (map tracked_free frees) st0 = Done (u, st1) →
    handlers st1 = handlers st0.
Proof.
  induction frees as [|p frees IH]; intros st0 u st1.
  - rewrite run_nil. now intros [= _ <-].
  - cbn [map]. rewrite run_cons. cbn [perform].
    destruct (vips_tracked_free p st0) as [[u1 st2]| |] eqn:E;
      [|discriminate..].
    intros Hrun. rewrite (IH _ _ _ Hrun).
    apply vips_tracked_free_done in E as (size & _ & _ & ->).
    reflexivity.
Qed.

(** X13: Allocations in a row for one owner, of sizes at most SIZE_MAX - 16
    and all granted, connect one vips_tracked_cb() for each pointer
    returned, in order; and when the owner runs its "postclose" handlers
    (vips_object_postclose, the owner's side as section 6 of the spec
    has it) they free every block: no block is left live, current bytes
    and the count are 0, nothing is reported and no handler is left. *)
Theorem owner_releases_all_blocks object reqs ps st :
  object ≠ NULL →
  Forall (λ q, 0 <= fst q <= SIZE_MAX - 16) reqs →
  calls_ok (map (malloc_call_for object) reqs) initial = true →
  allocate_all_for object reqs initial = Done (ps, st) →
  Forall (λ p, p ≠ NULL) ps →
  handlers st = map (pair object) ps
  ∧ vips_tracked_allocs st = Z.of_nat (length ps)
  ∧ ∃ st',
      vips_object_postclose object st = Done (tt, st')
      ∧ heap st' = []
      ∧ vips_tracked_mem st' = 0
      ∧ vips_tracked_allocs st' = 0
      ∧ log st' = []
      ∧ handlers st' = [].
Proof.
  intros Hobj Hsz Hok Ha Hps.
  destruct (allocate_all_for_live object reqs _ _ _
              initial_consistent Hok Hsz Ha Hps)
    as (Hnd & Hlive & _ & Hlen & Hlog & Hint & _ & Hhs).
  cbn [initial handlers heap log app length] in Hhs, Hlen, Hlog.
  destruct (Z.eqb_spec object NULL); [contradiction|].
  pose proof (allocate_all_for_consistent _ _ _ _ _
                initial_consistent Hok Ha) as Hc.
  split; [exact Hhs|].
  split; [rewrite (allocs_is_count _ Hc), Hlen; reflexivity|].
  destruct (free_each ps (set_handlers [] st))
    as (st' & Hrun & Hnil & Hc' & Hl & _).
  - now apply consistent_set_handlers.
  - apply Hint, initial_int_range.
  - exact Hnd.
  - intros p Hp. now destruct (Hlive _ Hp).
  - cbn [set_handlers heap]. now rewrite Hlen.
  - exists st'.
    destruct (filter_all_owned object ps) as [Hmine Hothers].
    split.
    + unfold vips_object_postclose, bind, get, modify.
      rewrite Hhs, Hmine, Hothers, run_callbacks_frees. exact Hrun.
    + split; [exact Hnil|].
      rewrite (mem_is_sum _ Hc'), (allocs_is_count _ Hc'), Hnil, Hl.
      cbn [set_handlers log total_bytes foldr length]. rewrite Hlog.
      repeat split.
      now rewrite (frees_keep_handlers _ _ _ _ Hrun).
Qed.

(** X14: vips_tracked_free() does not disconnect the vips_tracked_cb()
    that vips_tracked_malloc() connected: after a granted allocation for
    an owner and a free of its pointer by hand, the handler for that
    pointer is still connected, as the last one, while the block it would
    free is no longer live. *)
Theorem owned_block_freed_by_hand object size r st p st1 :
  object ≠ NULL →
  int_range (vips_tracked_allocs st) →
  vips_tracked_malloc object size r st = Done (p, st1) →
  p ≠ NULL →
  ∃ st2,
    vips_tracked_free p st1 = Done (tt, st2)
    ∧ vips_tracked_allocs st2 = vips_tracked_allocs st
    ∧ handlers st2 = handlers st ++ [(object, p)]
    ∧ (∀ n, ¬ In (p - 16, n) (heap st2))
    ∧ call_ok (tracked_free p) st2 = false.
Proof.
  intros Hobj Hint Hm Hp.
  apply vips_tracked_malloc_done in Hm
    as [(_ & _ & -> & _)|(Hr & _ & Hint1 & -> & ->)]; [contradiction|].
  set (total := size_t_wrap (size + 16)) in *.
  set (st1 := allocated object total r st) in *.
  assert (memory st1 !! r = Some total) as Hhdr by apply lookup_insert_eq.
  exists (freed total r st1).
  replace (r + 16 - 16) with r by lia.
  split.
  { rewrite vips_tracked_free_eq.
    replace (r + 16 - 16) with r by lia. rewrite Hhdr.
    assert ((INT_MIN <=? vips_tracked_allocs st1 - 1)
            && (vips_tracked_allocs st1 - 1 <=? INT_MAX) = true) as ->;
      [|reflexivity].
    apply int_check_true. unfold st1. cbn [allocated vips_tracked_allocs].
    unfold int_range in *. lia. }
  split; [unfold st1; cbn [freed allocated vips_tracked_allocs]; lia|].
  split.
  { unfold st1. cbn [freed allocated handlers].
    destruct (Z.eqb_spec object NULL); [contradiction | reflexivity]. }
  split.
  - intros n Hn. cbn [freed heap] in Hn.
    apply filter_In in Hn as [_ Hb]. cbn [fst] in Hb.
    rewrite Z.eqb_refl in Hb. discriminate.
  - cbn [call_ok freed heap]. replace (r + 16 - 16) with r by lia.
    apply released_not_live.
Qed.

(** ** A thread on its own does what the calls do *)

Lemma world_step_inserted i r st mx (ths : list thread) th0 k td :
  ths !! i = Some th0 →
  world_step i r (World st mx (<[i := Thread k td]> ths))
  = if match k, td with
       | Idle, size :: _ => grant_ok (heap st) (size_t_wrap (size + 16)) r
       | _, _ => true
       end
       && match mutex_effect k, mx with
          | Acquire, Some _ => false
          | _, _ => true
          end
    then
      match micro_step k (head td) r st with
      | Done (k', st') =>
          Some (World st'
                  (match mutex_effect k with
                   | Acquire => Some i
                   | Release => None
                   | Keep => mx
                   end)
                  (<[i := Thread k' (match k with
                                     | Idle => tail td
                                     | _ => td
                                     end)]> ths))
      | _ => None
      end
    else None.
Proof.
  intros Hi. unfold world_step. cbn [threads shared mutex].
  rewrite list_lookup_insert_eq by (eapply lookup_lt_Some; eauto).
  cbn [pc todo].
  match goal with |- (if ?b then _ else _) = _ => destruct b end;
    [|reflexivity].
  destruct (micro_step k (head td) r st) as [[k' st']| |]; try reflexivity.
  now rewrite list_insert_insert_eq.
Qed.

Local Arguments world_step : simpl never.
Local Arguments size_t_wrap : simpl never.

(** The nineteen steps of one pair, taken by one thread with no other
    thread stepping in between, leave what is shared as
    vips_tracked_malloc() followed by vips_tracked_free() leaves it. *)
Lemma pair_alone i r st ths size rest p st1 st2 :
  ths !! i = Some (Thread Idle (size :: rest)) →
  grant_ok (heap st) (size_t_wrap (size + 16)) r = true →
  vips_tracked_malloc NULL size r st = Done (p, st1) →
  p ≠ NULL →
  vips_tracked_free p st1 = Done (tt, st2) →
  run_schedule (repeat (i, r) 19) (World st None ths)
  = Some (World st2 None (<[i := Thread Idle rest]> ths)).
Proof.
  intros Hi Hg Hm Hp Hf.
  apply vips_tracked_malloc_done in Hm
    as [(_ & _ & -> & _)|(Hr & Hroom & Hint1 & -> & ->)]; [contradiction|].
  apply vips_tracked_free_done in Hf as (hdr & Hld & Hint2 & ->).
  replace (r + 16 - 16) with r in * by lia.
  cbn [allocated memory] in Hld. rewrite lookup_insert_eq in Hld.
  injection Hld as <-.
  cbn [allocated vips_tracked_allocs] in Hint2.
  apply int_check_true in Hint1, Hint2.
  apply Z.leb_le in Hroom. apply Z.eqb_neq in Hr.
  assert ((size_t_wrap
             (size_t_wrap (vips_tracked_mem st + size_t_wrap (size + 16))
              - size_t_wrap (size + 16)) <? 0) = false) as Hdead
    by apply Z.ltb_ge, size_t_wrap_range.
  rewrite <- (list_insert_id ths i _ Hi) at 1.
  cbn [repeat run_schedule].
  (* Idle, M_lock *)
  rewrite (world_step_inserted _ _ _ _ _ _ _ _ Hi).
  rewrite Hg. cbn. unfold bind, g_try_malloc. rewrite Hr. cbn. rewrite Hr.
  cbn.
  rewrite (world_step_inserted _ _ _ _ _ _ _ _ Hi); cbn.
  (* M_header *)
  rewrite (world_step_inserted _ _ _ _ _ _ _ _ Hi); cbn.
  unfold bind, store_size_t, block_size. cbn. rewrite Z.eqb_refl. cbn.
  rewrite Hroom. cbn.
  (* M_mem_load, M_mem_store *)
  do 2 (rewrite (world_step_inserted _ _ _ _ _ _ _ _ Hi); cbn).
  (* M_highwater *)
  rewrite (world_step_inserted _ _ _ _ _ _ _ _ Hi); cbn.
  unfold bind, get, when, modify, ret. cbn.
  destruct (vips_tracked_mem_highwater st
            <? size_t_wrap (vips_tracked_mem st + size_t_wrap (size + 16)))
    eqn:Ehw; cbn.
  all: (* M_allocs_load *)
    rewrite (world_step_inserted _ _ _ _ _ _ _ _ Hi); cbn.
  all: (* M_allocs_store *)
    rewrite (world_step_inserted _ _ _ _ _ _ _ _ Hi); cbn;
    unfold bind, int_op; rewrite Hint1; cbn.
  all: (* M_unlock *)
    rewrite (world_step_inserted _ _ _ _ _ _ _ _ Hi); cbn.
  all: (* F_header *)
    rewrite (world_step_inserted _ _ _ _ _ _ _ _ Hi); cbn;
    unfold bind, load_size_t; cbn;
    replace (r + 16 - 16) with r by lia; rewrite lookup_insert_eq; cbn.
  all: (* F_lock *)
    rewrite (world_step_inserted _ _ _ _ _ _ _ _ Hi); cbn.
  all: (* F_allocs_check *)
    rewrite (world_step_inserted _ _ _ _ _ _ _ _ Hi); cbn;
    unfold bind, get, when, vips_warn, modify, ret; cbn;
    destruct (vips_tracked_allocs st + 1 <=? 0) eqn:Eal; cbn.
  all: (* F_mem_load, F_mem_store *)
    do 2 (rewrite (world_step_inserted _ _ _ _ _ _ _ _ Hi); cbn).
  all: (* F_mem_check *)
    rewrite (world_step_inserted _ _ _ _ _ _ _ _ Hi); cbn;
    unfold bind, get, when; cbn; rewrite Hdead; cbn.
  all: (* F_allocs_load *)
    rewrite (world_step_inserted _ _ _ _ _ _ _ _ Hi); cbn.
  all: (* F_allocs_store *)
    rewrite (world_step_inserted _ _ _ _ _ _ _ _ Hi); cbn;
    unfold bind, int_op; rewrite Hint2; cbn.
  all: (* F_unlock, F_release *)
    do 2 (rewrite (world_step_inserted _ _ _ _ _ _ _ _ Hi); cbn).
  all: unfold freed, allocated; cbn; rewrite Ehw, Eal, Z.eqb_refl; cbn.
  all: reflexivity.
Qed.
End Build.

(** ** The theorems at work: size_t of 64 bits, DEBUG not defined *)

Lemma size_t_64 : 8 <= 64 <= 128.
Proof. lia. Qed.

(** Allocating 100 bytes in a block at 4096 and freeing the pointer. *)
Lemma malloc_then_free_restores_witness :
  ∃ st2,
    vips_tracked_free 64 4112 (allocated 64 NULL 116 4096 initial)
    = Done (tt, st2)
    ∧ vips_tracked_mem st2 = 0
    ∧ vips_tracked_allocs st2 = 0.
Proof.
  destruct (malloc_then_free_restores 64 false size_t_64 100 4096 initial
              4112 (allocated 64 NULL 116 4096 initial))
    as (_ & _ & _ & st2 & Hfree & _ & Hmem & Hallocs).
  - vm_compute. split; discriminate.
  - vm_compute. split; discriminate.
  - vm_compute. reflexivity.
  - discriminate.
  - exists st2. auto.
Defined.





(** A request of 3 MB that the byte allocator refuses. *)
Lemma exhaustion_reported_witness :
  ∃ st', vips_tracked_malloc 64 false NULL 3145728 NULL initial
         = Done (NULL, st')
    ∧ log st' = [error_event "vips_tracked" (out_of_memory (Some 3));
                 warn_event "vips_tracked" (out_of_memory (Some 3))]
    ∧ vips_tracked_allocs st' = 0.
Proof.
  destruct (exhaustion_reported 64 false NULL 3145728 initial eq_refl)
    as (st' & mb & Hm & Hlog & Hmb & _ & _ & Hallocs & _).
  exists st'. split; [exact Hm|]. split; [|exact Hallocs].
  rewrite Hlog, Hmb.
  - reflexivity.
  - vm_compute. split; discriminate.
  - vm_compute. discriminate.
Defined.

(** C7 as stated fails: a refused request of 2^51 bytes is 2^31 MB with
    its header, which no int holds, and the two reports are filled with
    the unspecified int the conversion leaves, not with the megabytes of
    the request. *)
Lemma exhaustion_reported_counterexample :
  ∃ st', vips_tracked_malloc 64 false NULL (2 ^ 51) NULL initial
         = Done (NULL, st')
    ∧ log st' = [error_event "vips_tracked" (out_of_memory None);
                 warn_event "vips_tracked" (out_of_memory None)]
    ∧ (2 ^ 51 + 16) / 1048576 = 2147483648
    ∧ INT_MAX < 2147483648
    ∧ log st' ≠ [error_event "vips_tracked"
                   (out_of_memory (Some 2147483648));
                 warn_event "vips_tracked"
                   (out_of_memory (Some 2147483648))].
Proof.
  eexists. split; [vm_compute; reflexivity|].
  split; [reflexivity|]. split; [reflexivity|]. split; [reflexivity|].
  discriminate.
Qed.

(** One byte allocated for the owner 7, which is then destroyed. *)
Lemma owner_releases_block_witness :
  ∃ st2,
    vips_object_postclose 64 7 (allocated 64 7 17 4096 initial)
    = Done (tt, st2)
    ∧ vips_tracked_allocs (allocated 64 7 17 4096 initial) = 1
    ∧ vips_tracked_allocs st2 = 0
    ∧ handlers st2 = [].
Proof.
  destruct (owner_releases_block 64 false size_t_64 7 1 4096 initial 4112
              (allocated 64 7 17 4096 initial)) as [_ Hgranted].
  - vm_compute. reflexivity.
  - destruct Hgranted as (_ & _ & Hclose); [discriminate..|].
    destruct Hclose as (st2 & Hpost & _ & Ha1 & Ha2 & Hh).
    + vm_compute. split; discriminate.
    + constructor.
    + exists st2. auto.
Defined.

(** Three allocations in a row, one of them of no bytes. *)
Lemma allocations_add_up_witness :
  ∃ ps st,
    allocate_all 64 false [(100, 4096); (0, 8192); (10, 12288)] initial
    = Done (ps, st)
    ∧ vips_tracked_mem st = 158
    ∧ vips_tracked_allocs st = 3.
Proof.
  eexists _, _. split; [vm_compute; reflexivity|].
  apply (allocations_add_up 64 false size_t_64
           [(100, 4096); (0, 8192); (10, 12288)]
           [4112; 8208; 12304]).
  - repeat constructor; vm_compute; discriminate.
  - vm_compute. reflexivity.
  - vm_compute. reflexivity.
  - repeat constructor; discriminate.
Defined.

(** C1: one allocation of SIZE_MAX bytes. The byte allocator, keeping to
    its promise, grants the 15 bytes that SIZE_MAX + 16 wraps to; the call
    returns a pointer, and current bytes is 15 where the sum of the sizes
    with their headers is SIZE_MAX + 16. *)
Lemma wrapped_request_miscounted :
  ∃ ps st,
    calls_ok 64 false (map malloc_call [(2 ^ 64 - 1, 4096)]) initial = true
    ∧ allocate_all 64 false [(2 ^ 64 - 1, 4096)] initial = Done (ps, st)
    ∧ Forall (λ p, p ≠ NULL) ps
    ∧ vips_tracked_mem st = 15
    ∧ vips_tracked_allocs st = 1
    ∧ vips_tracked_mem st ≠ padded_bytes [(2 ^ 64 - 1, 4096)].
Proof.
  eexists _, _. split; [vm_compute; reflexivity|].
  split; [vm_compute; reflexivity|].
  split; [repeat constructor; discriminate|].
  split; [reflexivity|]. split; [reflexivity | vm_compute; discriminate].
Qed.

(** An allocation, a free, another allocation and its free. *)
Lemma highwater_monotone_and_above_witness :
  ∃ st1 st',
    run 64 false [tracked_malloc NULL 100 4096; tracked_free 4112] initial
    = Done (tt, st1)
    ∧ run 64 false [tracked_malloc NULL 10 4096; tracked_free 4112] st1
      = Done (tt, st')
    ∧ vips_tracked_mem_highwater initial <= vips_tracked_mem_highwater st1
    ∧ vips_tracked_mem_highwater st1 <= vips_tracked_mem_highwater st'
    ∧ vips_tracked_mem st1 <= vips_tracked_mem_highwater st1
    ∧ vips_tracked_mem st' <= vips_tracked_mem_highwater st'.
Proof.
  destruct (highwater_monotone_and_above 64 false size_t_64
              [tracked_malloc NULL 100 4096; tracked_free 4112]
              [tracked_malloc NULL 10 4096; tracked_free 4112]
              initial tt
              (State 0 0 116 [] (<[4096 := 26]> ∅) [] []))
    as (st1 & H1 & H2 & Hup1 & Hup2 & Habove).
  - vm_compute. reflexivity.
  - destruct Habove as [Ha1 Ha2].
    + apply initial_consistent, size_t_64.
    + vm_compute. reflexivity.
    + exists st1, (State 0 0 116 [] (<[4096 := 26]> ∅) [] []). auto 10.
Defined.

(** C4: a request of SIZE_MAX bytes asks the byte allocator for the 15
    bytes that SIZE_MAX + 16 wraps to; when it grants them at 4096 the
    call does not fail: it returns 4112, a pointer past the end of the
    block, and counts 15 bytes. *)
Lemma overflowing_request_succeeds :
  size_t_wrap 64 (SIZE_MAX 64 + 16) = 15
  ∧ grant_ok 64 (heap initial) 15 4096 = true
  ∧ ∃ st,
      vips_tracked_malloc 64 false NULL (SIZE_MAX 64) 4096 initial
      = Done (4112, st)
      ∧ heap st = [(4096, 15)]
      ∧ vips_tracked_mem st = 15
      ∧ vips_tracked_allocs st = 1
      ∧ log st = [].
Proof.
  split; [reflexivity|]. split; [reflexivity|].
  eexists. split; [vm_compute; reflexivity|]. repeat split.
Qed.

(** C5: with 26 bytes tracked in two live blocks, a free whose header
    says 116 takes current bytes to 2^64 - 90 and nothing is reported. *)
Lemma over_free_unreported :
  ∃ st1 st2,
    run 64 false
      [tracked_malloc NULL 100 4096; tracked_malloc NULL 10 8192;
       tracked_free 4112] initial = Done (tt, st1)
    ∧ vips_tracked_mem st1 = 26
    ∧ memory st1 !! (4112 - 16) = Some 116
    ∧ vips_tracked_free 64 4112 st1 = Done (tt, st2)
    ∧ vips_tracked_mem st2 = 2 ^ 64 - 90
    ∧ vips_tracked_allocs st2 = 0
    ∧ log st2 = [].
Proof.
  eexists _, _. split; [vm_compute; reflexivity|].
  split; [reflexivity|]. split; [vm_compute; reflexivity|].
  split; [vm_compute; reflexivity|]. repeat split.
Qed.

(** Two threads, the first with two pairs and the second with one, in an
    order that has two blocks live at once and the threads inside the
    mutex in turn. *)
Lemma threads_leave_nothing_witness :
  ∃ c,
    run_schedule 64 false
      (map (λ i, (i, 4096 * (Z.of_nat i + 1)))
         [0; 0; 1; 0; 0; 0; 0; 0; 0; 0; 1; 0; 1; 1; 1; 1; 1; 1; 1; 0;
          1; 0; 0; 0; 0; 0; 0; 0; 1; 0; 1; 0; 1; 1; 1; 1; 1; 1; 0; 1;
          0; 0; 0; 0; 0; 0; 0; 0; 0; 0; 0; 0; 0; 0; 0; 0; 0]%nat)
      (start [[100; 7]; [10]]) = Some c
    ∧ Forall finished (threads c)
    ∧ length (threads c) = 2%nat
    ∧ vips_tracked_mem (shared c) = 0
    ∧ vips_tracked_allocs (shared c) = 0.
Proof.
  eexists. split; [vm_compute; reflexivity|].
  split; [repeat constructor|].
  apply (threads_leave_nothing 64 false size_t_64 [[100; 7]; [10]]
           (map (λ i, (i, 4096 * (Z.of_nat i + 1)))
              [0; 0; 1; 0; 0; 0; 0; 0; 0; 0; 1; 0; 1; 1; 1; 1; 1; 1; 1; 0;
               1; 0; 0; 0; 0; 0; 0; 0; 1; 0; 1; 0; 1; 1; 1; 1; 1; 1; 0; 1;
               0; 0; 0; 0; 0; 0; 0; 0; 0; 0; 0; 0; 0; 0; 0; 0; 0]%nat)).
  - vm_compute. reflexivity.
  - repeat constructor.
Defined.

(** ** More of the theorems at work on that build *)

(** Two allocations and the free of the first. *)
Lemma accounting_matches_live_blocks_witness :
  ∃ st,
    run 64 false
      [tracked_malloc NULL 100 4096; tracked_malloc NULL 10 8192;
       tracked_free 4112] initial = Done (tt, st)
    ∧ (vips_tracked_mem st = total_bytes (heap st)
       ∧ vips_tracked_allocs st = Z.of_nat (length (heap st))
       ∧ 0 <= vips_tracked_allocs st
       ∧ Forall (λ blk, memory st !! fst blk = Some (snd blk)) (heap st)
       ∧ (heap st = [] →
          vips_tracked_mem st = 0 ∧ vips_tracked_allocs st = 0)).
Proof.
  eexists. split; [vm_compute; reflexivity|].
  apply (accounting_matches_live_blocks 64 false size_t_64
           [tracked_malloc NULL 100 4096; tracked_malloc NULL 10 8192;
            tracked_free 4112] tt).
  - vm_compute. reflexivity.
  - vm_compute. reflexivity.
Defined.

(** The same calls and a third allocation: the peak is 142, with the
    first two blocks live. *)
Lemma highwater_is_peak_witness :
  ∃ st,
    run 64 false
      [tracked_malloc NULL 100 4096; tracked_malloc NULL 10 8192;
       tracked_free 4112; tracked_malloc NULL 50 4096] initial
    = Done (tt, st)
    ∧ vips_tracked_mem_highwater st = 142
    ∧ vips_tracked_mem st = 92.
Proof.
  eexists. split; [vm_compute; reflexivity|]. split; [|reflexivity].
  apply (highwater_is_peak 64 false size_t_64
           [tracked_malloc NULL 100 4096; tracked_malloc NULL 10 8192;
            tracked_free 4112; tracked_malloc NULL 50 4096] tt).
  - vm_compute. reflexivity.
  - vm_compute. reflexivity.
Defined.

(** Freeing the second of two live blocks. *)
Lemma free_live_block_witness :
  ∃ st st',
    run 64 false
      [tracked_malloc NULL 100 4096; tracked_malloc NULL 10 8192] initial
    = Done (tt, st)
    ∧ vips_tracked_free 64 8208 st = Done (tt, st')
    ∧ vips_tracked_mem st' = 142 - 26
    ∧ vips_tracked_allocs st' = 2 - 1
    ∧ log st' = [].
Proof.
  eexists. 
  destruct (free_live_block 64 false size_t_64
              [tracked_malloc NULL 100 4096; tracked_malloc NULL 10 8192]
              tt
              (State 2 142 142 [(8192, 26); (4096, 116)]
                 (<[8192 := 26]> (<[4096 := 116]> ∅)) [] [])
              8208 26)
    as (st' & Hf & _ & Hm & Ha & _ & Hl & _).
  - vm_compute. reflexivity.
  - vm_compute. reflexivity.
  - left. reflexivity.
  - exists st'. split; [vm_compute; reflexivity|]. auto.
Defined.

(** An allocation that is refused between two that are granted. *)
Lemma proper_calls_report_no_free_warning_witness :
  ∃ st,
    run 64 false
      [tracked_malloc NULL 100 4096; tracked_malloc NULL 3145728 NULL;
       tracked_free 4112] initial = Done (tt, st)
    ∧ length (log st) = 2%nat
    ∧ (Forall is_out_of_memory (log st)
       ∧ (too_many_frees ∉ log st)
       ∧ (too_much_free ∉ log st)).
Proof.
  eexists. split; [vm_compute; reflexivity|]. split; [reflexivity|].
  apply (proper_calls_report_no_free_warning 64 false size_t_64
           [tracked_malloc NULL 100 4096; tracked_malloc NULL 3145728 NULL;
            tracked_free 4112] tt).
  - vm_compute. reflexivity.
  - vm_compute. reflexivity.
Defined.

(** Three allocations, freed second, third, first. *)
Lemma free_all_in_any_order_witness :
  ∃ st',
    run 64 false (map tracked_free [8208; 12304; 4112])
      (State 3 158 158 [(12288, 26); (8192, 16); (4096, 116)]
         (<[12288 := 26]> (<[8192 := 16]> (<[4096 := 116]> ∅))) [] [])
    = Done (tt, st')
    ∧ heap st' = []
    ∧ vips_tracked_mem st' = 0
    ∧ vips_tracked_allocs st' = 0
    ∧ log st' = []
    ∧ vips_tracked_mem_highwater st' = 158.
Proof.
  apply (free_all_in_any_order 64 false size_t_64
           [(100, 4096); (0, 8192); (10, 12288)]
           [4112; 8208; 12304]).
  - repeat constructor; vm_compute; discriminate.
  - vm_compute. reflexivity.
  - vm_compute. reflexivity.
  - repeat constructor; discriminate.
  - apply perm_trans with [8208; 4112; 12304].
    + apply perm_skip, perm_swap.
    + apply perm_swap.
Defined.

(** 100 bytes for the owner 7 in a block at 4096, which is 16-aligned. *)
Lemma payload_inside_block_witness :
  In (4096, 116) (heap (allocated 64 7 116 4096 initial))
  ∧ memory (allocated 64 7 116 4096 initial) !! 4096 = Some 116
  ∧ 4112 = 4096 + 16
  ∧ 4096 + sizeof_size_t 64 <= 4112
  ∧ 4112 + 100 = 4096 + 116
  ∧ ∀ a, (a | 16) → (a | 4096) → (a | 4112).
Proof.
  apply (payload_inside_block 64 false size_t_64 7 100 4096 initial 4112
           (allocated 64 7 116 4096 initial)).
  - vm_compute. split; discriminate.
  - vm_compute. reflexivity.
  - discriminate.
Defined.

(** The refused request of 3 MB on a build with DEBUG defined. *)
Lemma exhaustion_aborts_in_debug_witness :
  vips_tracked_malloc 64 true NULL 3145728 NULL initial = Aborted.
Proof.
  apply (exhaustion_aborts_in_debug 64 true NULL 3145728 initial).
  reflexivity.
Defined.

(** Two threads, after both were granted their blocks and the first one
    took the mutex and stored its header. *)
Lemma one_thread_in_section_witness :
  ∃ c th,
    run_schedule 64 false [(0%nat, 4096); (1%nat, 8192); (0%nat, 0);
                           (0%nat, 0)] (start [[100; 7]; [10]]) = Some c
    ∧ threads c !! 0%nat = Some th
    ∧ critical (pc th) = true
    ∧ ∀ j th', threads c !! j = Some th' → critical (pc th') = true →
               0%nat = j.
Proof.
  exists (World (State 0 0 0 [(8192, 26); (4096, 116)]
                   (<[4096 := 116]> ∅) [] [])
            (Some 0%nat)
            [Thread (M_mem_load 116 4112) [7]; Thread (M_lock 26 8192) []]),
         (Thread (M_mem_load 116 4112) [7]).
  split; [vm_compute; reflexivity|]. split; [reflexivity|].
  split; [reflexivity|].
  intros j th' Hj Hc.
  apply (one_thread_in_section 64 false size_t_64 [[100; 7]; [10]]
           [(0%nat, 4096); (1%nat, 8192); (0%nat, 0); (0%nat, 0)]
           (World (State 0 0 0 [(8192, 26); (4096, 116)]
                     (<[4096 := 116]> ∅) [] [])
              (Some 0%nat)
              [Thread (M_mem_load 116 4112) [7]; Thread (M_lock 26 8192) []])
           0%nat j
           (Thread (M_mem_load 116 4112) [7]) th').
  - vm_compute. reflexivity.
  - reflexivity.
  - exact Hj.
  - reflexivity.
  - exact Hc.
Defined.

(** The same four steps: two blocks are live, no allocation is counted
    yet. *)
Lemma count_within_threads_witness :
  ∃ c,
    run_schedule 64 false [(0%nat, 4096); (1%nat, 8192); (0%nat, 0);
                           (0%nat, 0)] (start [[100; 7]; [10]]) = Some c
    ∧ (0 <= vips_tracked_allocs (shared c) <= 2
       ∧ 0 <= vips_tracked_mem (shared c) < 2 ^ 64).
Proof.
  eexists. split; [vm_compute; reflexivity|].
  apply (count_within_threads 64 false size_t_64 [[100; 7]; [10]]
           [(0%nat, 4096); (1%nat, 8192); (0%nat, 0); (0%nat, 0)]).
  vm_compute. reflexivity.
Defined.

(** A thread whose allocation is refused while another is inside the
    mutex. *)
Lemma threads_report_no_free_warning_witness :
  ∃ c,
    run_schedule 64 false [(0%nat, 4096); (0%nat, 0); (0%nat, 0);
                           (1%nat, NULL)] (start [[100; 7]; [10]]) = Some c
    ∧ length (log (shared c)) = 2%nat
    ∧ (Forall is_out_of_memory (log (shared c))
       ∧ (too_many_frees ∉ log (shared c))
       ∧ (too_much_free ∉ log (shared c))).
Proof.
  eexists. split; [vm_compute; reflexivity|]. split; [reflexivity|].
  apply (threads_report_no_free_warning 64 false size_t_64
           [[100; 7]; [10]]
           [(0%nat, 4096); (0%nat, 0); (0%nat, 0); (1%nat, NULL)]).
  vm_compute. reflexivity.
Defined.

(** With the first thread inside the mutex and the second one waiting for
    it, the first one can step. *)
Lemma some_thread_can_step_witness :
  ∃ c i c',
    run_schedule 64 false [(0%nat, 4096); (1%nat, 8192); (0%nat, 0);
                           (0%nat, 0)] (start [[100; 7]; [10]]) = Some c
    ∧ world_step 64 false 1 NULL c = None
    ∧ world_step 64 false i NULL c = Some c'.
Proof.
  eexists.
  destruct (some_thread_can_step 64 false size_t_64 [[100; 7]; [10]]
              [(0%nat, 4096); (1%nat, 8192); (0%nat, 0); (0%nat, 0)]
              (World (State 0 0 0 [(8192, 26); (4096, 116)]
                        (<[4096 := 116]> ∅) [] [])
                 (Some 0%nat)
                 [Thread (M_mem_load 116 4112) [7];
                  Thread (M_lock 26 8192) []])
              1%nat (Thread (M_lock 26 8192) []))
    as (i & c' & Hstep).
  - reflexivity.
  - repeat constructor; vm_compute; discriminate.
  - vm_compute. discriminate.
  - vm_compute. reflexivity.
  - reflexivity.
  - intros [Hpc _]. discriminate.
  - exists i, c'. split; [vm_compute; reflexivity|].
    split; [vm_compute; reflexivity | exact Hstep].
Defined.

(** One pair in one thread takes the nineteen steps. *)
Lemma threads_finish_witness :
  ∃ c,
    run_schedule 64 false (repeat (0%nat, 4096) 19) (start [[100]]) = Some c
    ∧ Forall finished (threads c).
Proof.
  eexists. split; [vm_compute; reflexivity|].
  apply (threads_finish 64 false [[100]] (repeat (0%nat, 4096) 19)).
  - vm_compute. reflexivity.
  - vm_compute. reflexivity.
Defined.

(** Two blocks for the owner 7, which is then destroyed. *)
Lemma owner_releases_all_blocks_witness :
  ∃ st st',
    allocate_all_for 64 false 7 [(100, 4096); (10, 8192)] initial
    = Done ([4112; 8208], st)
    ∧ handlers st = [(7, 4112); (7, 8208)]
    ∧ vips_tracked_allocs st = 2
    ∧ vips_object_postclose 64 7 st = Done (tt, st')
    ∧ heap st' = []
    ∧ vips_tracked_mem st' = 0
    ∧ vips_tracked_allocs st' = 0
    ∧ log st' = []
    ∧ handlers st' = [].
Proof.
  eexists.
  destruct (owner_releases_all_blocks 64 false size_t_64 7
              [(100, 4096); (10, 8192)] [4112; 8208]
              (State 2 142 142 [(8192, 26); (4096, 116)]
                 (<[8192 := 26]> (<[4096 := 116]> ∅)) []
                 [(7, 4112); (7, 8208)]))
    as (Hh & Ha & st' & Hrest).
  - discriminate.
  - repeat constructor; vm_compute; discriminate.
  - vm_compute. reflexivity.
  - vm_compute. reflexivity.
  - repeat constructor; discriminate.
  - exists st'. split; [vm_compute; reflexivity|]. auto.
Defined.

(** A block for the owner 7, freed by hand while another allocation is
    counted. *)
Lemma owned_block_freed_by_hand_witness :
  ∃ st2,
    vips_tracked_free 64 8208
      (allocated 64 7 26 8192 (allocated 64 NULL 116 4096 initial))
    = Done (tt, st2)
    ∧ vips_tracked_allocs st2 = 1
    ∧ handlers st2 = [(7, 8208)]
    ∧ call_ok 64 (tracked_free 8208) st2 = false.
Proof.
  destruct (owned_block_freed_by_hand 64 false size_t_64 7 10 8192
              (allocated 64 NULL 116 4096 initial) 8208
              (allocated 64 7 26 8192 (allocated 64 NULL 116 4096 initial)))
    as (st2 & Hf & Ha & Hh & _ & Hgone).
  - discriminate.
  - vm_compute. split; discriminate.
  - vm_compute. reflexivity.
  - discriminate.
  - exists st2. auto.
Defined.
